(** * Emoji search engine: suffix-trie index, voting search, caller-side ranking

    A shallow embedding of [EmojiSearcher] (search-emoji.ts) and of the
    search callback of the selector view (emoji-selector.tsx), followed by
    the properties of the index, of the voting search and of the ranking.

    Modelling conventions.
    - A JS string is a [string], i.e. a sequence of one-byte units; [chars]
      exposes the units.  [toLowerCase] and [trim] are the ASCII fragments of
      [String.prototype.toLowerCase] and [String.prototype.trim].
    - A JS object used as a dictionary is a [gmap] over its own keys.  The
      exact-name table is read and written through [getProp] and
      [setProp], which add what such an object inherits from
      [Object.prototype] as ECMAScript defines it, the accessor "__proto__"
      and the other members of its Annex B included.  The keys of the trie
      nodes are single units and those of the vote table are record ids:
      neither can name an inherited member.
    - [undefined] is [None]; a [TypeError] raised by dereferencing
      [undefined] makes the enclosing function return [None].
    - In-place mutation of the tries and of the vote table is explicit
      state passing: the tries are trees without sharing. *)

From stdpp Require Import gmap strings list fin_maps sorting.
From Stdlib Require Import Ascii ZArith Lia.

Set Warnings "-register-all".
Set Default Proof Using "Type".

(* ================================================================== *)
(** ** Strings *)

Definition chars (s : string) : list ascii := String.list_ascii_of_string s.

(** White space removed by [trim], ASCII range: TAB, LF, VT, FF, CR, SP. *)
Definition isWhiteSpace (c : ascii) : bool :=
  let n := nat_of_ascii c in
  (n =? 32) || ((9 <=? n) && (n <=? 13)).

Definition lowerChar (c : ascii) : ascii :=
  let n := nat_of_ascii c in
  if (65 <=? n) && (n <=? 90) then ascii_of_nat (n + 32) else c.

Fixpoint toLowerCase (s : string) : string :=
  match s with
  | EmptyString => EmptyString
  | String c rest => String (lowerChar c) (toLowerCase rest)
  end.

Fixpoint trimStart (s : string) : string :=
  match s with
  | EmptyString => EmptyString
  | String c rest => if isWhiteSpace c then trimStart rest else s
  end.

Fixpoint trimEnd (s : string) : string :=
  match s with
  | EmptyString => EmptyString
  | String c rest =>
      match trimEnd rest with
      | EmptyString => if isWhiteSpace c then EmptyString else String c EmptyString
      | rest' => String c rest'
      end
  end.

Definition trim (s : string) : string := trimEnd (trimStart s).

(** [a.localeCompare(b)]: the sign of the comparison, here in unit order. *)
Definition localeCompare (a b : string) : Z :=
  match String.compare a b with
  | Lt => (-1)%Z
  | Eq => 0%Z
  | Gt => 1%Z
  end.

(** [p] occurs in [t] as a contiguous block. *)
Definition infix_of {A} (p t : list A) : Prop := ∃ a b, t = a ++ p ++ b.

#[global] Instance infix_of_dec {A} `{EqDecision A} (p t : list A) :
  Decision (infix_of p t).
Proof.
  induction t as [|c t IH].
  - destruct p as [|x p].
    + left. by exists [], [].
    + right. intros (a & b & E). by destruct a.
  - destruct (decide (p `prefix_of` c :: t)) as [P|E].
    + left. destruct P as [k P]. by exists [], k.
    + destruct IH as [I|I].
      * left. destruct I as (a & b & I). exists (c :: a), b. simpl. congruence.
      * right. intros (a & b & E'). destruct a as [|x a]; simpl in E'.
        -- apply E. by exists b.
        -- apply I. exists a, b. congruence.
Defined.

(* ================================================================== *)
(** ** The suffix trie *)

Section Trie.
Context {A : Type} `{Countable A}.

(** interface TrieNode { children: Record<string, TrieNode>; output: number[] } *)
Inductive TrieNode : Type :=
  mkNode { children : gmap A TrieNode; output : list nat }.

(** The literal [{ children: {}, output: [] }]. *)
Definition emptyNode : TrieNode := mkNode ∅ [].

(** [if (!node.output.includes(emojiIdx)) node.output.push(emojiIdx)] *)
Definition pushOutput (node : TrieNode) (emojiIdx : nat) : TrieNode :=
  if bool_decide (emojiIdx ∈ output node) then node
  else mkNode (children node) (output node ++ [emojiIdx]).

(** The inner loop of [insertIntoTrie]: walk [text[start..]] from [node],
    creating missing children and tagging every node stepped into. *)
Fixpoint insertPath (node : TrieNode) (s : list A) (emojiIdx : nat) : TrieNode :=
  match s with
  | [] => node
  | ch :: rest =>
      let child := default emptyNode (children node !! ch) in
      mkNode (<[ch := insertPath (pushOutput child emojiIdx) rest emojiIdx]>
                (children node))
             (output node)
  end.

(** The outer loop: one walk per suffix [text[start..]], [start] ascending. *)
Fixpoint insertIntoTrie (root : TrieNode) (text : list A) (emojiIdx : nat) : TrieNode :=
  match text with
  | [] => root
  | _ :: rest => insertIntoTrie (insertPath root text emojiIdx) rest emojiIdx
  end.

(** The loop of [searchTrie]: [for (i = 0; i < input.length && node; i++)]. *)
Fixpoint walk (node : option TrieNode) (input : list A) : option TrieNode :=
  match input, node with
  | ch :: rest, Some n => walk (children n !! ch) rest
  | _, _ => node
  end.

Definition searchTrie (root : TrieNode) (input : list A) : list nat :=
  match walk (Some root) input with
  | Some node => output node
  | None => []
  end.

(** Every node of the trie lists a record id at most once. *)
Definition outputs_nodup (root : TrieNode) : Prop :=
  ∀ path node, walk (Some root) path = Some node → NoDup (output node).

End Trie.

(** The tries of the searcher are keyed by string units. *)
Abbreviation Trie := (TrieNode (A := ascii)).

(* ================================================================== *)
(** ** The catalog and the result record (type.ts) *)

Record EmojiImageTuple := {
  img_apple : nat;
  img_google : nat;
  img_twitter : nat;
  img_facebook : nat;
  img_path : string
}.

(** [EmojiImageArray]: the tuple or [null]. *)
Definition EmojiImageArray := option EmojiImageTuple.

(** One element of [ReducedEmojiList["emojis"]]; the fields are the tuple
    positions 0 to 5. *)
Record Emoji := {
  em_emoji : string;
  em_name : string;
  em_category : nat;
  em_subCategory : nat;
  em_keywords : list nat;
  em_image : EmojiImageArray
}.

Record ReducedEmojiList := {
  category : list string;
  subCategory : list (list string);
  keywords : list string;
  emojis : list Emoji
}.

Record HumanReadableImage := {
  hi_image : string;
  hi_apple : bool;
  hi_google : bool;
  hi_twitter : bool;
  hi_facebook : bool
}.

Record HumanReadableEmoji := {
  hr_emoji : string;
  hr_name : string;
  hr_category : option string;
  hr_subcategory : option string;
  hr_keywords : list (option string);
  hr_image : option HumanReadableImage;
  hr_weight : option nat
}.

(* ================================================================== *)
(** ** EmojiSearcher (search-emoji.ts) *)

(** The names every plain object inherits from [Object.prototype]. *)
Definition objectPrototypeKeys : list string :=
  [ "constructor"; "__defineGetter__"; "__defineSetter__"; "hasOwnProperty";
    "__lookupGetter__"; "__lookupSetter__"; "isPrototypeOf";
    "propertyIsEnumerable"; "toString"; "valueOf"; "__proto__";
    "toLocaleString" ]%string.

(** What [o[key]] evaluates to when [o] is a plain object holding numbers:
    an own property, a member inherited from [Object.prototype] (a function,
    or the prototype itself for "__proto__"), or [undefined]. *)
Inductive PropValue : Type :=
  | Own (idx : nat)
  | Inherited
  | Undefined.

Definition getProp (o : gmap string nat) (key : string) : PropValue :=
  match o !! key with
  | Some idx => Own idx
  | None => if bool_decide (key ∈ objectPrototypeKeys) then Inherited else Undefined
  end.

(** [o[key] = idx].  The inherited members are writable data properties,
    so the assignment shadows them with an own property; "__proto__" is
    an accessor whose setter ignores a number, so nothing is stored unless
    the object already has an own property of that name. *)
Definition setProp (o : gmap string nat) (key : string) (idx : nat) : gmap string nat :=
  if bool_decide (key = "__proto__"%string) && bool_decide (o !! key = None) then o
  else <[key := idx]> o.

Record EmojiSearcher := {
  emojiList : ReducedEmojiList;
  nameTrieRoot : Trie;
  keywordTrieRoot : Trie;
  categoryTrieRoot : Trie;
  nameMap : gmap string nat
}.

(** The value returned by [toJSON]. *)
Record TrieCache := {
  tc_nameTrieRoot : Trie;
  tc_keywordTrieRoot : Trie;
  tc_categoryTrieRoot : Trie;
  tc_nameMap : gmap string nat
}.

Definition commonEmojis : list string :=
  [ "😂"; "❤️"; "🤣"; "👍"; "😭"; "🙏"; "😘"; "🥰"; "😍"; "😊"; "🎉"; "😁";
    "💕"; "🥺"; "😅"; "🔥"; "✨"; "💖"; "👀"; "😋"; "🙂"; "😳"; "🥳"; "😎" ]%string.

(** [for (const keywordIdx of emoji[4])] of [buildTries];
    [keywords[keywordIdx]!.toLowerCase()] raises on a missing keyword. *)
Fixpoint insertKeywords (L : ReducedEmojiList) (root : Trie)
    (ks : list nat) (i : nat) : option Trie :=
  match ks with
  | [] => Some root
  | keywordIdx :: rest =>
      keyword ← keywords L !! keywordIdx;
      insertKeywords L (insertIntoTrie root (chars (toLowerCase keyword)) i) rest i
  end.

(** The body of the [for] loop of [buildTries] for record [i]. *)
Definition buildStep (i : nat) (emoji : Emoji) (s : EmojiSearcher) : option EmojiSearcher :=
  let L := emojiList s in
  let name := em_name emoji in
  let nameMap' := setProp (nameMap s) name i in
  let nameTrie' := insertIntoTrie (nameTrieRoot s) (chars (toLowerCase name)) i in
  keywordTrie' ← insertKeywords L (keywordTrieRoot s) (em_keywords emoji) i;
  categoryName ← category L !! em_category emoji;
  subs ← subCategory L !! em_category emoji;
  subcategoryName ← subs !! em_subCategory emoji;
  let categoryTrie' :=
    insertIntoTrie
      (insertIntoTrie (categoryTrieRoot s) (chars (toLowerCase categoryName)) i)
      (chars (toLowerCase subcategoryName)) i in
  Some {| emojiList := L;
          nameTrieRoot := nameTrie';
          keywordTrieRoot := keywordTrie';
          categoryTrieRoot := categoryTrie';
          nameMap := nameMap' |}.

(** [for (let i = ...; i < emojis.length; i++)], entered at index [i] with
    the records [es] still to visit. *)
Fixpoint buildLoop (i : nat) (es : list Emoji) (s : EmojiSearcher) : option EmojiSearcher :=
  match es with
  | [] => Some s
  | emoji :: rest => s' ← buildStep i emoji s; buildLoop (S i) rest s'
  end.

Definition buildTries (s : EmojiSearcher) : option EmojiSearcher :=
  buildLoop 0 (emojis (emojiList s)) s.

(** [new EmojiSearcher(emojiList, cachedJson?)] *)
Definition newEmojiSearcher (L : ReducedEmojiList) (cachedJson : option TrieCache)
    : option EmojiSearcher :=
  match cachedJson with
  | Some c =>
      Some {| emojiList := L;
              nameTrieRoot := tc_nameTrieRoot c;
              keywordTrieRoot := tc_keywordTrieRoot c;
              categoryTrieRoot := tc_categoryTrieRoot c;
              nameMap := tc_nameMap c |}
  | None =>
      buildTries {| emojiList := L;
                    nameTrieRoot := emptyNode;
                    keywordTrieRoot := emptyNode;
                    categoryTrieRoot := emptyNode;
                    nameMap := ∅ |}
  end.

Definition toJSON (s : EmojiSearcher) : TrieCache :=
  {| tc_nameTrieRoot := nameTrieRoot s;
     tc_keywordTrieRoot := keywordTrieRoot s;
     tc_categoryTrieRoot := categoryTrieRoot s;
     tc_nameMap := nameMap s |}.

Definition fromEmojiImageArr (arr : EmojiImageArray) : option HumanReadableImage :=
  match arr with
  | None => None
  | Some t =>
      Some {| hi_image := img_path t;
              hi_apple := img_apple t =? 1;
              hi_google := img_google t =? 1;
              hi_twitter := img_twitter t =? 1;
              hi_facebook := img_facebook t =? 1 |}
  end.

(** [emoji[0]] raises when [emojiIdx] is out of range, and so does
    [subCategory[emoji[2]]![emoji[3]]] when the category has no
    subcategory row; the other lookups yield [undefined]. *)
Definition intoHumanReadable (s : EmojiSearcher) (emojiIdx : nat) (weight : option nat)
    : option HumanReadableEmoji :=
  let L := emojiList s in
  emoji ← emojis L !! emojiIdx;
  subs ← subCategory L !! em_category emoji;
  Some {| hr_emoji := em_emoji emoji;
          hr_name := em_name emoji;
          hr_category := category L !! em_category emoji;
          hr_subcategory := subs !! em_subCategory emoji;
          hr_keywords := (λ k, keywords L !! k) <$> em_keywords emoji;
          hr_image := fromEmojiImageArr (em_image emoji);
          hr_weight := weight |}.

(** [resultVotes[idx] = (resultVotes[idx] || 0) + weight] *)
Definition addVote (idx weight : nat) (resultVotes : gmap nat nat) : gmap nat nat :=
  <[idx := default 0 (resultVotes !! idx) + weight]> resultVotes.

Definition addVotes (weight : nat) (ids : list nat) (resultVotes : gmap nat nat)
    : gmap nat nat :=
  foldl (λ votes idx, addVote idx weight votes) resultVotes ids.

(** [keywords.indexOf(input)], [None] for -1. *)
Definition indexOf (l : list string) (x : string) : option nat :=
  fst <$> list_find (λ y, y = x) l.

(** Step 2 of [search]: the loop over all records for an exact keyword. *)
Fixpoint exactKeywordVotes (exactKeywordIdx : nat) (i : nat) (es : list Emoji)
    (resultVotes : gmap nat nat) : gmap nat nat :=
  match es with
  | [] => resultVotes
  | emoji :: rest =>
      exactKeywordVotes exactKeywordIdx (S i) rest
        (if bool_decide (exactKeywordIdx ∈ em_keywords emoji)
         then addVote i 4 resultVotes else resultVotes)
  end.

(** [addVote(exactIdx, 5)] when [exactIdx] is an inherited member: the
    vote is stored under the key that member converts to, which is no
    record id.  It is the only vote that can land outside the record ids. *)
Definition strayVote (s : EmojiSearcher) (input : string) : bool :=
  match getProp (nameMap s) input with
  | Inherited => true
  | _ => false
  end.

(** The entries of the vote table [resultVotes] under record ids, once the
    five signals have been cast. *)
Definition tally (s : EmojiSearcher) (input : string) : gmap nat nat :=
  let L := emojiList s in
  let lowerInput := toLowerCase (trim input) in
  let exactKeywordIdx := indexOf (keywords L) input in
  let v1 := match getProp (nameMap s) input with
            | Own exactIdx => addVote exactIdx 5 ∅
            | _ => ∅
            end in
  let v2 := match exactKeywordIdx with
            | Some k => exactKeywordVotes k 0 (emojis L) v1
            | None => v1
            end in
  let v3 := addVotes 3 (searchTrie (nameTrieRoot s) (chars lowerInput)) v2 in
  let v4 := addVotes 2 (searchTrie (keywordTrieRoot s) (chars lowerInput)) v3 in
  addVotes 1 (searchTrie (categoryTrieRoot s) (chars lowerInput)) v4.

Definition key_le (a b : nat * nat) : Prop := a.1 ≤ b.1.

#[global] Instance key_le_dec : RelDecision key_le.
Proof. intros a b. unfold key_le. apply _. Defined.

(** [Object.entries] of an object whose keys are array indices: the
    entries come in ascending key order. *)
Definition Object_entries (o : gmap nat nat) : list (nat * nat) :=
  merge_sort key_le (map_to_list o).

(** [([, weight]) => weight > 3] *)
Definition passes (e : nat * nat) : Prop := 3 < e.2.

#[global] Instance passes_dec e : Decision (passes e).
Proof. unfold passes. apply _. Defined.

(** A stray vote weighs 5 and passes the filter; [parseInt] of its key is
    [NaN], [emojis[NaN]] is [undefined] and [intoHumanReadable] raises. *)
Definition search (s : EmojiSearcher) (input : string) : option (list HumanReadableEmoji) :=
  let lowerInput := toLowerCase (trim input) in
  if decide (lowerInput = EmptyString) then
    mapM (λ i, intoHumanReadable s i None) (seq 0 (length (emojis (emojiList s))))
  else if strayVote s input then None
  else
    mapM (λ e, intoHumanReadable s e.1 (Some e.2))
         (filter passes (Object_entries (tally s input))).

Definition getAll (s : EmojiSearcher) : option (list HumanReadableEmoji) :=
  mapM (λ i, intoHumanReadable s i None) (seq 0 (length (emojis (emojiList s)))).

(** [emojis.findIndex(([emoji]) => emoji === e)], [None] for -1. *)
Definition findIndex (es : list Emoji) (e : string) : option nat :=
  fst <$> list_find (λ emoji, em_emoji emoji = e) es.

(** [commonEmojis.map(...)] yields [null] or a record per glyph, and
    [.filter(Boolean)] drops the [null]s. *)
Fixpoint getCommonFrom (s : EmojiSearcher) (glyphs : list string)
    : option (list HumanReadableEmoji) :=
  match glyphs with
  | [] => Some []
  | e :: rest =>
      match findIndex (emojis (emojiList s)) e with
      | None => getCommonFrom s rest
      | Some idx =>
          r ← intoHumanReadable s idx None;
          rs ← getCommonFrom s rest;
          Some (r :: rs)
      end
  end.

Definition getCommon (s : EmojiSearcher) : option (list HumanReadableEmoji) :=
  getCommonFrom s commonEmojis.

(* ================================================================== *)
(** ** The caller: the search callback of the selector view (emoji-selector.tsx) *)

(** Truthiness of [a.weight]: [undefined] and [0] are falsy. *)
Definition truthy (w : option nat) : bool :=
  match w with
  | Some (S _) => true
  | _ => false
  end.

(** The number read from [a.weight] once it is known to be truthy. *)
Definition weightOf (a : HumanReadableEmoji) : nat := default 0 (hr_weight a).

(** The comparator handed to [result.sort]. *)
Definition compareFn (a b : HumanReadableEmoji) : Z :=
  if truthy (hr_weight a) && truthy (hr_weight b) then
    (Z.of_nat (weightOf b) - Z.of_nat (weightOf a))%Z
  else if truthy (hr_weight a) then (-1)%Z
  else if truthy (hr_weight b) then 1%Z
  else localeCompare (hr_emoji a) (hr_emoji b).

Section Sort.
Context {T : Type} (cmp : T → T → Z).

Fixpoint sort_insert (x : T) (l : list T) : list T :=
  match l with
  | [] => [x]
  | y :: rest =>
      if (cmp x y <=? 0)%Z then x :: l else y :: sort_insert x rest
  end.

(** [Array.prototype.sort(cmp)] is a stable sort: an element moves behind
    a later one only when the comparator is positive on the pair.  For a
    consistent comparator the outcome is that of this insertion sort. *)
Definition sort (l : list T) : list T := foldr sort_insert [] l.

End Sort.

(** The body of [throttledSearch]: the value handed to [update], the
    inner [None] standing for [null]; the outer [None] when [search]
    raises before [update] is reached. *)
Definition throttledSearch (input : option string) (searcher : EmojiSearcher)
    : option (option (list HumanReadableEmoji)) :=
  match trim <$> input with
  | None => Some None
  | Some input' =>
      if decide (input' = EmptyString) then Some None
      else
        result ← search searcher input';
        Some (Some (take 32 (sort compareFn result)))
  end.

(* ================================================================== *)
(** ** Specification vocabulary *)

(** The record ids behind the entries of [search]'s result, with the
    weight each entry carries. *)
Definition searchHits (s : EmojiSearcher) (input : string) : list (nat * option nat) :=
  if decide (toLowerCase (trim input) = EmptyString) then
    (λ i, (i, None)) <$> seq 0 (length (emojis (emojiList s)))
  else
    (λ e, (e.1, Some e.2)) <$> filter passes (Object_entries (tally s input)).

(** [l] with [i] appended unless it is there already. *)
Definition addIdx (l : list nat) (i : nat) : list nat :=
  if bool_decide (i ∈ l) then l else l ++ [i].

(** The strings a record feeds into each of the three tries. *)
Definition nameTexts (L : ReducedEmojiList) (e : Emoji) : list string := [em_name e].

Definition keywordTexts (L : ReducedEmojiList) (e : Emoji) : list string :=
  omap (λ k, keywords L !! k) (em_keywords e).

Definition categoryTexts (L : ReducedEmojiList) (e : Emoji) : list string :=
  option_list (category L !! em_category e) ++
  option_list (subCategory L !! em_category e ≫= λ subs, subs !! em_subCategory e).

(** [q] occurs in the lower-cased form of one of the [texts]. *)
Definition occursIn (q : list ascii) (texts : list string) : Prop :=
  Exists (λ t, infix_of q (chars (toLowerCase t))) texts.

(** Record [j] exists and [q] occurs in one of its [tx]-strings. *)
Definition recordHas (L : ReducedEmojiList)
    (tx : ReducedEmojiList → Emoji → list string) (q : list ascii) (j : nat) : Prop :=
  match emojis L !! j with
  | Some e => occursIn q (tx L e)
  | None => False
  end.

#[global] Instance recordHas_dec L tx q j : Decision (recordHas L tx q j).
Proof. unfold recordHas, occursIn. destruct (emojis L !! j); apply _. Defined.

(** The lower-cased name of record [i] contains [q]. *)
Definition name_contains (L : ReducedEmojiList) (q : string) (i : nat) : Prop :=
  ∃ e, emojis L !! i = Some e ∧ infix_of (chars q) (chars (toLowerCase (em_name e))).

(** Some keyword referenced by record [i] contains [q], lower-cased. *)
Definition keyword_contains (L : ReducedEmojiList) (q : string) (i : nat) : Prop :=
  ∃ e k kw, emojis L !! i = Some e ∧ k ∈ em_keywords e ∧ keywords L !! k = Some kw ∧
            infix_of (chars q) (chars (toLowerCase kw)).

(** The category name or the subcategory name of record [i] contains [q],
    lower-cased. *)
Definition category_contains (L : ReducedEmojiList) (q : string) (i : nat) : Prop :=
  ∃ e, emojis L !! i = Some e ∧
    ((∃ c, category L !! em_category e = Some c ∧
           infix_of (chars q) (chars (toLowerCase c))) ∨
     (∃ subs sc, subCategory L !! em_category e = Some subs ∧
                 subs !! em_subCategory e = Some sc ∧
                 infix_of (chars q) (chars (toLowerCase sc)))).

(** The catalog invariant: every index a record refers to is in range. *)
Definition validEmoji (L : ReducedEmojiList) (e : Emoji) : Prop :=
  Forall (λ k, is_Some (keywords L !! k)) (em_keywords e) ∧
  is_Some (category L !! em_category e) ∧
  is_Some (subCategory L !! em_category e ≫= λ subs, subs !! em_subCategory e).

Definition validCatalog (L : ReducedEmojiList) : Prop :=
  Forall (validEmoji L) (emojis L).

(** Record [i] is the last of the first [k] records that is named [x]. *)
Definition lastNamed (L : ReducedEmojiList) (k : nat) (x : string) (i : nat) : Prop :=
  (∃ e, emojis L !! i = Some e ∧ em_name e = x) ∧ i < k ∧
  ∀ j e', i < j → j < k → emojis L !! j = Some e' → em_name e' ≠ x.

(** What a freshly built searcher over [L] satisfies. *)
Record built (L : ReducedEmojiList) (s : EmojiSearcher) : Prop := {
  built_list : emojiList s = L;
  built_valid : validCatalog L;
  built_nameMap : ∀ x i,
    nameMap s !! x = Some i ↔
    x ≠ "__proto__"%string ∧ lastNamed L (length (emojis L)) x i;
  built_name : ∀ q, q ≠ [] →
    searchTrie (nameTrieRoot s) q =
    filter (recordHas L nameTexts q) (seq 0 (length (emojis L)));
  built_keyword : ∀ q, q ≠ [] →
    searchTrie (keywordTrieRoot s) q =
    filter (recordHas L keywordTexts q) (seq 0 (length (emojis L)));
  built_category : ∀ q, q ≠ [] →
    searchTrie (categoryTrieRoot s) q =
    filter (recordHas L categoryTexts q) (seq 0 (length (emojis L)));
  built_nodup :
    outputs_nodup (nameTrieRoot s) ∧ outputs_nodup (keywordTrieRoot s) ∧
    outputs_nodup (categoryTrieRoot s)
}.

(** Tagging [i] for a batch of texts: the shape shared by the three tries. *)
Definition tagged (t t' : Trie) (texts : list string) (i : nat) : Prop :=
  ∀ q, searchTrie t' q =
       if decide (q ≠ [] ∧ occursIn q texts) then addIdx (searchTrie t q) i
       else searchTrie t q.

(** The loop invariant of [buildTries] after [k] rounds. *)
Definition buildInv (L : ReducedEmojiList) (k : nat) (s : EmojiSearcher) : Prop :=
  Forall (validEmoji L) (take k (emojis L)) ∧
  (∀ x i, nameMap s !! x = Some i ↔ x ≠ "__proto__"%string ∧ lastNamed L k x i) ∧
  (∀ q, q ≠ [] →
     searchTrie (nameTrieRoot s) q = filter (recordHas L nameTexts q) (seq 0 k)) ∧
  (∀ q, q ≠ [] →
     searchTrie (keywordTrieRoot s) q = filter (recordHas L keywordTexts q) (seq 0 k)) ∧
  (∀ q, q ≠ [] →
     searchTrie (categoryTrieRoot s) q = filter (recordHas L categoryTexts q) (seq 0 k)) ∧
  (outputs_nodup (nameTrieRoot s) ∧ outputs_nodup (keywordTrieRoot s) ∧
     outputs_nodup (categoryTrieRoot s)).

(** The weight a record has accumulated, 0 when it has no entry. *)
Definition weightAt (votes : gmap nat nat) (i : nat) : nat := default 0 (votes !! i).

(** Record [i] references keyword [k], the loop having started at [i0]. *)
Definition refsFrom (k i0 : nat) (es : list Emoji) (i : nat) : Prop :=
  i0 ≤ i ∧ match es !! (i - i0) with
           | Some e => k ∈ em_keywords e
           | None => False
           end.

#[global] Instance refsFrom_dec k i0 es i : Decision (refsFrom k i0 es i).
Proof. unfold refsFrom. destruct (es !! (i - i0)); apply _. Defined.

(** The exact-name table sends the query, as passed, to record [i]. *)
Definition exactNameHit (s : EmojiSearcher) (input : string) (i : nat) : Prop :=
  nameMap s !! input = Some i.

(** The query, as passed, is a keyword and record [i] references the
    first id under which that keyword is listed. *)
Definition exactKeywordHit (L : ReducedEmojiList) (input : string) (i : nat) : Prop :=
  match indexOf (keywords L) input with
  | Some k => refsFrom k 0 (emojis L) i
  | None => False
  end.

#[global] Instance exactNameHit_dec s input i : Decision (exactNameHit s input i).
Proof. unfold exactNameHit. apply _. Defined.

#[global] Instance exactKeywordHit_dec L input i : Decision (exactKeywordHit L input i).
Proof. unfold exactKeywordHit. destruct (indexOf _ _); apply _. Defined.

(** The exact-name lookup of [input] does not fall through to an inherited
    member: [input] names no member of [Object.prototype], or a record
    carries that name and the name is not "__proto__". *)
Definition lookupSafe (L : ReducedEmojiList) (input : string) : Prop :=
  input ∈ objectPrototypeKeys →
  input ≠ "__proto__"%string ∧ input ∈ em_name <$> emojis L.

#[global] Instance lookupSafe_dec L input : Decision (lookupSafe L input).
Proof. unfold lookupSafe. apply _. Defined.

(** The sum of the weights of the signals record [i] satisfies. *)
Definition signalWeight (s : EmojiSearcher) (input : string) (i : nat) : nat :=
  let L := emojiList s in
  let q := chars (toLowerCase (trim input)) in
  (if decide (exactNameHit s input i) then 5 else 0) +
  (if decide (exactKeywordHit L input i) then 4 else 0) +
  (if decide (recordHas L nameTexts q i) then 3 else 0) +
  (if decide (recordHas L keywordTexts q i) then 2 else 0) +
  (if decide (recordHas L categoryTexts q i) then 1 else 0).

(** The weight an entry is ranked by: its weight when truthy, else 0. *)
Definition rank (r : HumanReadableEmoji) : nat :=
  if truthy (hr_weight r) then weightOf r else 0.

(** The (glyph, weight) pairs of a result list. *)
Definition glyphWeights (rs : option (list HumanReadableEmoji))
    : option (list (string * option nat)) :=
  match rs with
  | Some l => Some ((λ r, (hr_emoji r, hr_weight r)) <$> l)
  | None => None
  end.

(* ================================================================== *)
(** ** Sample catalogs and searchers *)

Definition mkCatalog (kws : list string) (es : list Emoji) : ReducedEmojiList :=
  {| category := ["Activities"%string];
     subCategory := [["event"%string]];
     keywords := kws;
     emojis := es |}.

Definition mkEmoji (g n : string) (ks : list nat) : Emoji :=
  {| em_emoji := g; em_name := n; em_category := 0; em_subCategory := 0;
     em_keywords := ks; em_image := None |}.

(** The one-record catalog of the worked example. *)
Definition partyCatalog : ReducedEmojiList :=
  mkCatalog ["celebration"%string] [mkEmoji "🎉" "party popper" [0]].

Definition emptySearcher (L : ReducedEmojiList) : EmojiSearcher :=
  {| emojiList := L; nameTrieRoot := emptyNode; keywordTrieRoot := emptyNode;
     categoryTrieRoot := emptyNode; nameMap := ∅ |}.

(** The searcher [new EmojiSearcher(L)] yields; the input of [buildTries]
    when the build raises. *)
Definition freshSearcher (L : ReducedEmojiList) : EmojiSearcher :=
  default (emptySearcher L) (newEmojiSearcher L None).

Definition partySearcher : EmojiSearcher := freshSearcher partyCatalog.

(** Two records share the name "ox". *)
Definition twinNameCatalog : ReducedEmojiList :=
  mkCatalog [] [mkEmoji "a" "ox" []; mkEmoji "b" "ox" []].

Definition twinNameSearcher : EmojiSearcher := freshSearcher twinNameCatalog.

(** The keyword "joy" is listed under the ids 0 and 1; the record
    references id 1. *)
Definition twinKeywordCatalog : ReducedEmojiList :=
  mkCatalog ["joy"; "joy"] [mkEmoji "a" "grin" [1]].

Definition twinKeywordSearcher : EmojiSearcher := freshSearcher twinKeywordCatalog.

(** A record whose name is empty and whose only keyword is the empty
    string. *)
Definition blankCatalog : ReducedEmojiList :=
  mkCatalog [""] [mkEmoji "a" "" [0]].

Definition blankSearcher : EmojiSearcher := freshSearcher blankCatalog.

(** A record named after the accessor every object inherits. *)
Definition protoCatalog : ReducedEmojiList :=
  mkCatalog [] [mkEmoji "p" "__proto__" []].

Definition protoSearcher : EmojiSearcher := freshSearcher protoCatalog.

(** A keyword that is also the name of an inherited member; no record is
    named so. *)
Definition builderCatalog : ReducedEmojiList :=
  mkCatalog ["constructor"] [mkEmoji "b" "builder" [0]].

Definition builderSearcher : EmojiSearcher := freshSearcher builderCatalog.

(** Two records that both score 5 on the query "ca"; the glyph of record
    0 sorts after the glyph of record 1. *)
Definition tieCatalog : ReducedEmojiList :=
  mkCatalog ["car"] [mkEmoji "b" "cab" [0]; mkEmoji "a" "cat" [0]].

Definition tieSearcher : EmojiSearcher := freshSearcher tieCatalog.

(* ================================================================== *)
(** ** The bundled selector (js/emoji-selector.js) and the view helpers *)

(** First loop of the bundled [buildTries]: the name trie and the
    exact-name table. *)
Fixpoint jsNameLoop (i : nat) (es : list Emoji) (s : EmojiSearcher) : EmojiSearcher :=
  match es with
  | [] => s
  | emoji :: rest =>
      let name := em_name emoji in
      jsNameLoop (S i) rest
        {| emojiList := emojiList s;
           nameTrieRoot := insertIntoTrie (nameTrieRoot s) (chars (toLowerCase name)) i;
           keywordTrieRoot := keywordTrieRoot s;
           categoryTrieRoot := categoryTrieRoot s;
           nameMap := setProp (nameMap s) name i |}
  end.

(** Second loop: the keyword trie. *)
Fixpoint jsKeywordLoop (i : nat) (es : list Emoji) (s : EmojiSearcher)
    : option EmojiSearcher :=
  match es with
  | [] => Some s
  | emoji :: rest =>
      keywordTrie' ← insertKeywords (emojiList s) (keywordTrieRoot s) (em_keywords emoji) i;
      jsKeywordLoop (S i) rest
        {| emojiList := emojiList s;
           nameTrieRoot := nameTrieRoot s;
           keywordTrieRoot := keywordTrie';
           categoryTrieRoot := categoryTrieRoot s;
           nameMap := nameMap s |}
  end.

(** Third loop: the category trie. *)
Fixpoint jsCategoryLoop (i : nat) (es : list Emoji) (s : EmojiSearcher)
    : option EmojiSearcher :=
  match es with
  | [] => Some s
  | emoji :: rest =>
      let L := emojiList s in
      categoryName ← category L !! em_category emoji;
      subs ← subCategory L !! em_category emoji;
      subcategoryName ← subs !! em_subCategory emoji;
      jsCategoryLoop (S i) rest
        {| emojiList := L;
           nameTrieRoot := nameTrieRoot s;
           keywordTrieRoot := keywordTrieRoot s;
           categoryTrieRoot :=
             insertIntoTrie
               (insertIntoTrie (categoryTrieRoot s) (chars (toLowerCase categoryName)) i)
               (chars (toLowerCase subcategoryName)) i;
           nameMap := nameMap s |}
  end.

(** [buildTries] of the bundled searcher: three loops over the records,
    one per trie. *)
Definition jsBuildTries (s : EmojiSearcher) : option EmojiSearcher :=
  let es := emojis (emojiList s) in
  s2 ← jsKeywordLoop 0 es (jsNameLoop 0 es s);
  jsCategoryLoop 0 es s2.

(** [new EmojiSearcher(emojiList)] of the bundled searcher. *)
Definition jsNewEmojiSearcher (L : ReducedEmojiList) : option EmojiSearcher :=
  jsBuildTries {| emojiList := L;
                  nameTrieRoot := emptyNode;
                  keywordTrieRoot := emptyNode;
                  categoryTrieRoot := emptyNode;
                  nameMap := ∅ |}.

(** [getImagePath], the host system [Deno.build.os] being the argument
    [os]. *)
Definition getImagePath (os : string) (emoji : HumanReadableEmoji) : option string :=
  match hr_image emoji with
  | None => None
  | Some img =>
      if bool_decide (os = "darwin") && hi_apple img
      then Some ("img-apple-64/" +:+ hi_image img)
      else if hi_google img then Some ("img-google-64/" +:+ hi_image img)
      else None
  end.

(** What a grid cell holds: the glyph as text, or an image asset. *)
Inductive Content : Type :=
  | H1 (children : string)
  | Image (asset : string).

(** [EmojiDisplay]; [forceFontRendering] is an optional property. *)
Definition EmojiDisplay (os : string) (emoji : HumanReadableEmoji)
    (forceFontRendering : option bool) : Content :=
  match getImagePath os emoji with
  | None => H1 (hr_emoji emoji)
  | Some imgPath =>
      if default false forceFontRendering then H1 (hr_emoji emoji)
      else Image imgPath
  end.

(** [const display = filteredEmoji || commonEmoji]: an array, even an
    empty one, is truthy; only [null] gives way to the curated set. *)
Definition display (filteredEmoji : option (list HumanReadableEmoji))
    (commonEmoji : list HumanReadableEmoji) : list HumanReadableEmoji :=
  match filteredEmoji with
  | Some l => l
  | None => commonEmoji
  end.

(** The list the grid shows once [throttledSearch] has handed its value
    to [setFilteredEmoji], [commonEmoji] being [searcher.getCommon()];
    [None] when [getCommon] or the callback raises, so that no list is
    handed over. *)
Definition displayAfter (input : option string) (searcher : EmojiSearcher)
    : option (list HumanReadableEmoji) :=
  commonEmoji ← getCommon searcher;
  filteredEmoji ← throttledSearch input searcher;
  Some (display filteredEmoji commonEmoji).

(** Field-wise description of the three loops of the bundled build. *)
Fixpoint namesTrie (i : nat) (es : list Emoji) (t : Trie) : Trie :=
  match es with
  | [] => t
  | e :: rest => namesTrie (S i) rest (insertIntoTrie t (chars (toLowerCase (em_name e))) i)
  end.

Fixpoint namesMap (i : nat) (es : list Emoji) (m : gmap string nat) : gmap string nat :=
  match es with
  | [] => m
  | e :: rest => namesMap (S i) rest (setProp m (em_name e) i)
  end.

Fixpoint keywordsTrie (L : ReducedEmojiList) (i : nat) (es : list Emoji) (t : Trie)
    : option Trie :=
  match es with
  | [] => Some t
  | e :: rest => t' ← insertKeywords L t (em_keywords e) i; keywordsTrie L (S i) rest t'
  end.

Definition categoryStep (L : ReducedEmojiList) (i : nat) (e : Emoji) (t : Trie)
    : option Trie :=
  categoryName ← category L !! em_category e;
  subs ← subCategory L !! em_category e;
  subcategoryName ← subs !! em_subCategory e;
  Some (insertIntoTrie (insertIntoTrie t (chars (toLowerCase categoryName)) i)
          (chars (toLowerCase subcategoryName)) i).

Fixpoint categoriesTrie (L : ReducedEmojiList) (i : nat) (es : list Emoji) (t : Trie)
    : option Trie :=
  match es with
  | [] => Some t
  | e :: rest => t' ← categoryStep L i e t; categoriesTrie L (S i) rest t'
  end.

(** A catalog tuple with an image whose flags are all raised. *)
Definition imageEmoji : Emoji :=
  {| em_emoji := "🎉"; em_name := "party popper"; em_category := 0;
     em_subCategory := 0; em_keywords := [0];
     em_image := Some {| img_apple := 1; img_google := 1; img_twitter := 1;
                         img_facebook := 1; img_path := "1f389.png" |} |}.

Definition imageCatalog : ReducedEmojiList :=
  mkCatalog ["celebration"] [imageEmoji].

(** Its materialization. *)
Definition imageRecord : HumanReadableEmoji :=
  {| hr_emoji := "🎉"; hr_name := "party popper";
     hr_category := Some "Activities"%string; hr_subcategory := Some "event"%string;
     hr_keywords := [Some "celebration"%string];
     hr_image := Some {| hi_image := "1f389.png"; hi_apple := true; hi_google := true;
                         hi_twitter := true; hi_facebook := true |};
     hr_weight := None |}.

Definition imageSearcher : EmojiSearcher := freshSearcher imageCatalog.

(* ================================================================== *)
(** ** Facts about strings *)

Lemma toLowerCase_empty (s : string) :
  toLowerCase s = EmptyString ↔ s = EmptyString.
Proof. destruct s; simpl; split; congruence. Qed.

Lemma chars_empty s : chars s = [] ↔ s = EmptyString.
Proof. destruct s; simpl; split; congruence. Qed.

Lemma lowerInput_nonempty input :
  trim input ≠ EmptyString → chars (toLowerCase (trim input)) ≠ [].
Proof. rewrite chars_empty, toLowerCase_empty. done. Qed.

Lemma trimEnd_fixed (s : string) : trimEnd (trimEnd s) = trimEnd s.
Proof.
  induction s as [|c r IH]; simpl; [done|].
  destruct (trimEnd r) as [|c' r'] eqn:E.
  - destruct (isWhiteSpace c) eqn:W; simpl; [done|]. by rewrite W.
  - simpl in *. by rewrite IH.
Qed.

Lemma trimStart_head (s : string) :
  match trimStart s with
  | EmptyString => True
  | String c _ => isWhiteSpace c = false
  end.
Proof.
  induction s as [|c r IH]; simpl; [done|].
  destruct (isWhiteSpace c) eqn:W; [done|]. simpl. done.
Qed.

Lemma trimStart_trimEnd (s : string) :
  match s with
  | EmptyString => True
  | String c _ => isWhiteSpace c = false
  end →
  trimStart (trimEnd s) = trimEnd s.
Proof.
  destruct s as [|c r]; simpl; [done|]. intros W.
  destruct (trimEnd r); rewrite ?W; simpl; by rewrite W.
Qed.

Lemma trim_idemp (s : string) : trim (trim s) = trim s.
Proof.
  unfold trim. rewrite trimStart_trimEnd; [apply trimEnd_fixed|apply trimStart_head].
Qed.

(* ================================================================== *)
(** ** Facts about contiguous occurrence *)

Section Infix.
Context {A : Type} `{EqDecision A}.
Implicit Types p t : list A.

Lemma infix_of_nil_r p : infix_of p [] ↔ p = [].
Proof.
  split.
  - intros (a & b & E). symmetry in E.
    apply app_eq_nil in E as [_ E]. by apply app_eq_nil in E as [E _].
  - intros ->. by exists [], [].
Qed.

Lemma infix_of_cons p c t :
  infix_of p (c :: t) ↔ p `prefix_of` (c :: t) ∨ infix_of p t.
Proof.
  split.
  - intros (a & b & E). destruct a as [|x a]; simpl in E.
    + left. by exists b.
    + right. exists a, b. congruence.
  - intros [[k E]|(a & b & E)].
    + exists [], k. done.
    + exists (c :: a), b. simpl. congruence.
Qed.

End Infix.

Lemma addIdx_idemp l i : addIdx (addIdx l i) i = addIdx l i.
Proof.
  unfold addIdx. destruct (decide (i ∈ l)) as [E|E].
  - by rewrite !(bool_decide_true _ E).
  - rewrite (bool_decide_false _ E). rewrite bool_decide_true; [done|]. set_solver.
Qed.

Lemma NoDup_addIdx l i : NoDup l → NoDup (addIdx l i).
Proof.
  intros Hl. unfold addIdx. case_bool_decide; [done|].
  apply NoDup_app. split; [done|]. split; [|apply NoDup_singleton].
  intros x Hx ->%list_elem_of_singleton. done.
Qed.

Lemma elem_of_addIdx l i j : j ∈ addIdx l i ↔ j ∈ l ∨ j = i.
Proof.
  unfold addIdx. case_bool_decide as E.
  - split; [by left|]. intros [?| ->]; done.
  - rewrite elem_of_app, list_elem_of_singleton. done.
Qed.

(* ================================================================== *)
(** ** Facts about the suffix trie *)

Section TrieFacts.
Context {A : Type} `{Countable A}.
Implicit Types (t : TrieNode (A := A)) (p s : list A) (i : nat).

Lemma walk_None p : walk (A := A) None p = None.
Proof. by destruct p. Qed.

Lemma searchTrie_nil t : searchTrie t [] = output t.
Proof. done. Qed.

Lemma searchTrie_emptyNode p : searchTrie (A := A) emptyNode p = [].
Proof.
  destruct p as [|c p]; [done|]. unfold searchTrie. simpl.
  rewrite lookup_empty. by rewrite walk_None.
Qed.

Lemma searchTrie_cons t c p :
  searchTrie t (c :: p) = searchTrie (default emptyNode (children t !! c)) p.
Proof.
  unfold searchTrie at 1. simpl. destruct (children t !! c) as [n|]; simpl; [done|].
  rewrite walk_None. by rewrite searchTrie_emptyNode.
Qed.

Lemma searchTrie_pushOutput t i p :
  searchTrie (pushOutput t i) p =
  match p with [] => addIdx (output t) i | _ => searchTrie t p end.
Proof.
  unfold pushOutput, addIdx. destruct p as [|c p].
  - rewrite searchTrie_nil. by case_bool_decide.
  - rewrite !searchTrie_cons. by case_bool_decide.
Qed.

(** One walk tags exactly the nodes whose path is a non-empty prefix of
    the walked string. *)
Lemma searchTrie_insertPath s : ∀ t p i,
  searchTrie (insertPath t s i) p =
  if decide (p ≠ [] ∧ p `prefix_of` s) then addIdx (searchTrie t p) i
  else searchTrie t p.
Proof.
  induction s as [|c s IH]; intros t p i.
  - simpl. case_decide as E; [|done]. destruct E as [E1 E2].
    apply prefix_nil_inv in E2. done.
  - destruct p as [|c' p].
    + rewrite decide_False; [|by intros [? _]]. done.
    + cbn [insertPath]. rewrite searchTrie_cons. cbn [children].
      destruct (decide (c' = c)) as [->|Hne].
      * rewrite lookup_insert_eq. simpl. rewrite IH.
        rewrite searchTrie_pushOutput. rewrite (searchTrie_cons t c p).
        destruct p as [|c2 p].
        -- rewrite decide_False; [|by intros [? _]].
           rewrite decide_True; [done|]. split; [done|].
           apply prefix_cons, prefix_nil.
        -- case_decide as E1; case_decide as E2; try done.
           ++ exfalso. apply E2. split; [done|]. apply prefix_cons. by destruct E1.
           ++ exfalso. apply E1. split; [done|]. destruct E2 as [_ E2].
              by apply prefix_cons_inv_2 in E2.
      * rewrite lookup_insert_ne; [|done]. rewrite decide_False.
        -- by rewrite searchTrie_cons.
        -- intros [_ E]. apply prefix_cons_inv_1 in E. done.
Qed.

(** Suffix insertion tags exactly the nodes whose path is a non-empty
    contiguous block of the text. *)
Lemma searchTrie_insertIntoTrie text : ∀ t p i,
  searchTrie (insertIntoTrie t text i) p =
  if decide (p ≠ [] ∧ infix_of p text) then addIdx (searchTrie t p) i
  else searchTrie t p.
Proof.
  induction text as [|c text IH]; intros t p i.
  - simpl. case_decide as E; [|done]. destruct E as [E1 E2].
    by apply infix_of_nil_r in E2.
  - cbn [insertIntoTrie]. rewrite IH, searchTrie_insertPath.
    pose proof (infix_of_cons p c text) as Hc.
    destruct (decide (p ≠ [] ∧ infix_of p text)) as [D2|D2];
      destruct (decide (p ≠ [] ∧ p `prefix_of` c :: text)) as [D3|D3];
      destruct (decide (p ≠ [] ∧ infix_of p (c :: text))) as [D1|D1];
      solve [done | apply addIdx_idemp | exfalso; tauto].
Qed.

Lemma outputs_nodup_alt t :
  outputs_nodup t ↔ ∀ p, NoDup (searchTrie t p).
Proof.
  unfold outputs_nodup, searchTrie. split.
  - intros Hn p. destruct (walk (Some t) p) eqn:E; [by eapply Hn|constructor].
  - intros Hn p n E. specialize (Hn p). by rewrite E in Hn.
Qed.

Lemma outputs_nodup_emptyNode : outputs_nodup (A := A) emptyNode.
Proof. apply outputs_nodup_alt. intros p. rewrite searchTrie_emptyNode. constructor. Qed.

Lemma outputs_nodup_insertIntoTrie t text i :
  outputs_nodup t → outputs_nodup (insertIntoTrie t text i).
Proof.
  rewrite !outputs_nodup_alt. intros Hn p. rewrite searchTrie_insertIntoTrie.
  case_decide; [apply NoDup_addIdx|]; apply Hn.
Qed.

End TrieFacts.

(* ================================================================== *)
(** ** Facts about building the index *)

Lemma occursIn_nil q : occursIn q [] ↔ False.
Proof. unfold occursIn. by rewrite Exists_nil. Qed.

Lemma occursIn_cons q t ts :
  occursIn q (t :: ts) ↔ infix_of q (chars (toLowerCase t)) ∨ occursIn q ts.
Proof. unfold occursIn. by rewrite Exists_cons. Qed.

Lemma occursIn_app q ts1 ts2 :
  occursIn q (ts1 ++ ts2) ↔ occursIn q ts1 ∨ occursIn q ts2.
Proof. unfold occursIn. by rewrite Exists_app. Qed.

Lemma tagged_nil t i : tagged t t [] i.
Proof.
  intros q. rewrite decide_False; [done|]. rewrite occursIn_nil. tauto.
Qed.

Lemma tagged_insert t text rest t' i :
  tagged (insertIntoTrie t (chars (toLowerCase text)) i) t' rest i →
  tagged t t' (text :: rest) i.
Proof.
  intros Ht q. rewrite Ht, searchTrie_insertIntoTrie.
  pose proof (occursIn_cons q text rest) as Hc.
  destruct (decide (q ≠ [] ∧ occursIn q rest));
    destruct (decide (q ≠ [] ∧ infix_of q (chars (toLowerCase text))));
    destruct (decide (q ≠ [] ∧ occursIn q (text :: rest)));
    solve [done | apply addIdx_idemp | exfalso; tauto].
Qed.

Lemma insertKeywords_tagged L ks : ∀ t t' i,
  insertKeywords L t ks i = Some t' →
  tagged t t' (omap (λ k, keywords L !! k) ks) i ∧
  Forall (λ k, is_Some (keywords L !! k)) ks.
Proof.
  induction ks as [|k ks IH]; intros t t' i Hk; simpl in Hk.
  - inversion Hk; subst. split; [apply tagged_nil|constructor].
  - destruct (keywords L !! k) as [kw|] eqn:E; simpl in Hk; [|done].
    apply IH in Hk as [Ht Hf]. split.
    + simpl. rewrite E. by apply tagged_insert.
    + constructor; [by rewrite E|done].
Qed.

Lemma insertKeywords_total L ks : ∀ t i,
  Forall (λ k, is_Some (keywords L !! k)) ks →
  is_Some (insertKeywords L t ks i).
Proof.
  induction ks as [|k ks IH]; intros t i Hf; simpl; [done|].
  inversion Hf as [|? ? [kw Hk] Hr]; subst. rewrite Hk. simpl. by apply IH.
Qed.

Lemma insertKeywords_nodup L ks : ∀ t t' i,
  insertKeywords L t ks i = Some t' → outputs_nodup t → outputs_nodup t'.
Proof.
  induction ks as [|k ks IH]; intros t t' i Hk Hn; simpl in Hk.
  - by inversion Hk; subst.
  - destruct (keywords L !! k) as [kw|]; simpl in Hk; [|done].
    eapply IH; [done|]. by apply outputs_nodup_insertIntoTrie.
Qed.

(** Assignment to a plain object: a no-op on a fresh "__proto__", an
    insertion otherwise. *)
Lemma setProp_proto o i :
  o !! "__proto__"%string = None → setProp o "__proto__" i = o.
Proof.
  intros Ho. unfold setProp.
  by rewrite bool_decide_true, (bool_decide_true (_ = None)).
Qed.

Lemma setProp_insert o key i :
  key ≠ "__proto__"%string → setProp o key i = <[key := i]> o.
Proof. intros Hk. unfold setProp. by rewrite (bool_decide_false (key = _)). Qed.

Lemma setProp_shadow o key i :
  is_Some (o !! key) → setProp o key i = <[key := i]> o.
Proof.
  intros [j Hj]. unfold setProp. rewrite (bool_decide_false (_ = None)).
  - by rewrite andb_false_r.
  - by rewrite Hj.
Qed.

Lemma elem_of_objectPrototypeKeys_proto : "__proto__"%string ∈ objectPrototypeKeys.
Proof. by apply (bool_decide_unpack _). Qed.

Lemma getProp_Own o key i : getProp o key = Own i ↔ o !! key = Some i.
Proof.
  unfold getProp. destruct (o !! key) as [j|].
  - split; intros [= ->]; done.
  - by destruct (bool_decide _).
Qed.

Lemma getProp_Inherited o key :
  getProp o key = Inherited ↔ o !! key = None ∧ key ∈ objectPrototypeKeys.
Proof.
  unfold getProp. destruct (o !! key) as [j|].
  - split; [done|by intros [? _]].
  - destruct (bool_decide_reflect (key ∈ objectPrototypeKeys)); split; try done.
    by intros [_ ?].
Qed.

Lemma getProp_Undefined o key :
  getProp o key = Undefined ↔ o !! key = None ∧ key ∉ objectPrototypeKeys.
Proof.
  unfold getProp. destruct (o !! key) as [j|].
  - split; [done|by intros [? _]].
  - destruct (bool_decide_reflect (key ∈ objectPrototypeKeys)); split; try done.
    by intros [_ ?].
Qed.

(** What one round of the [buildTries] loop does to the searcher. *)
Lemma buildStep_spec i e s s' :
  buildStep i e s = Some s' →
  emojiList s' = emojiList s ∧
  validEmoji (emojiList s) e ∧
  nameMap s' = setProp (nameMap s) (em_name e) i ∧
  tagged (nameTrieRoot s) (nameTrieRoot s') (nameTexts (emojiList s) e) i ∧
  tagged (keywordTrieRoot s) (keywordTrieRoot s') (keywordTexts (emojiList s) e) i ∧
  tagged (categoryTrieRoot s) (categoryTrieRoot s') (categoryTexts (emojiList s) e) i.
Proof.
  unfold buildStep. intros Hb.
  destruct (insertKeywords _ _ _ _) as [kt|] eqn:Ek; simpl in Hb; [|done].
  destruct (category _ !! _) as [c|] eqn:Ec; simpl in Hb; [|done].
  destruct (subCategory _ !! _) as [subs|] eqn:Es; simpl in Hb; [|done].
  destruct (subs !! _) as [sc|] eqn:Esc; simpl in Hb; [|done].
  inversion Hb; subst; clear Hb. simpl.
  apply insertKeywords_tagged in Ek as [Hkt Hkf].
  split_and!; try done.
  - split_and!; [done|by rewrite Ec|]. rewrite Es. simpl. by rewrite Esc.
  - apply tagged_insert, tagged_nil.
  - unfold categoryTexts. rewrite Ec, Es. simpl. rewrite Esc. simpl.
    apply tagged_insert, tagged_insert, tagged_nil.
Qed.

Lemma buildStep_total i e s :
  validEmoji (emojiList s) e → is_Some (buildStep i e s).
Proof.
  intros (Hk & [c Hc] & [sc Hs]). unfold buildStep.
  destruct (insertKeywords_total _ _ (keywordTrieRoot s) i Hk) as [kt ->]. simpl.
  rewrite Hc. simpl.
  destruct (subCategory _ !! _) as [subs|]; simpl in *; [|done].
  rewrite Hs. simpl. done.
Qed.

Lemma buildStep_nodup i e s s' :
  buildStep i e s = Some s' →
  outputs_nodup (nameTrieRoot s) ∧ outputs_nodup (keywordTrieRoot s) ∧
    outputs_nodup (categoryTrieRoot s) →
  outputs_nodup (nameTrieRoot s') ∧ outputs_nodup (keywordTrieRoot s') ∧
    outputs_nodup (categoryTrieRoot s').
Proof.
  unfold buildStep. intros Hb (Hn & Hk & Hc).
  destruct (insertKeywords _ _ _ _) as [kt|] eqn:Ek; simpl in Hb; [|done].
  destruct (category _ !! _) as [c|]; simpl in Hb; [|done].
  destruct (subCategory _ !! _) as [subs|]; simpl in Hb; [|done].
  destruct (subs !! _) as [sc|]; simpl in Hb; [|done].
  inversion Hb; subst; clear Hb. simpl. split_and!.
  - by apply outputs_nodup_insertIntoTrie.
  - by eapply insertKeywords_nodup.
  - by do 2 apply outputs_nodup_insertIntoTrie.
Qed.

Lemma tagged_filter L tx (t t' : Trie) k e q :
  emojis L !! k = Some e →
  tagged t t' (tx L e) k →
  q ≠ [] →
  searchTrie t q = filter (recordHas L tx q) (seq 0 k) →
  searchTrie t' q = filter (recordHas L tx q) (seq 0 (S k)).
Proof.
  intros He Ht Hq Hold. rewrite Ht, Hold, seq_S, filter_app. simpl.
  assert (k ∉ filter (recordHas L tx q) (seq 0 k)) as Hk.
  { rewrite list_elem_of_filter, elem_of_seq. lia. }
  assert (recordHas L tx q k ↔ occursIn q (tx L e)) as Hr.
  { unfold recordHas. by rewrite He. }
  rewrite filter_cons, filter_nil.
  destruct (decide (q ≠ [] ∧ occursIn q (tx L e))) as [D|D];
    destruct (decide (recordHas L tx q k)) as [R|R]; try (exfalso; tauto).
  - unfold addIdx. by rewrite bool_decide_false.
  - by rewrite app_nil_r.
Qed.

Lemma lastNamed_step L k e x i :
  emojis L !! k = Some e →
  <[em_name e := k]> (∅ : gmap string nat) !! x = Some i ∨
    (em_name e ≠ x ∧ lastNamed L k x i) ↔
  lastNamed L (S k) x i.
Proof.
  intros He. split.
  - intros [Hl|[Hne (Hex & Hlt & Hlast)]].
    + apply lookup_insert_Some in Hl as [[<- <-]|[_ Hl]]; [|by rewrite lookup_empty in Hl].
      split_and!; [by exists e|lia|intros; lia].
    + split_and!; [done|lia|]. intros j e' Hij Hj Hje.
      destruct (decide (j = k)) as [->|]; [congruence|]. eapply Hlast; [done| |done]. lia.
  - intros (Hex & Hlt & Hlast). destruct (decide (i = k)) as [->|Hik].
    + left. destruct Hex as (e0 & He0 & Hn). rewrite He in He0. inversion He0; subst.
      by rewrite lookup_insert_eq.
    + right. split.
      * intros Hn. eapply (Hlast k e); [lia|lia|done|done].
      * split_and!; [done|lia|]. intros j e' Hij Hj. apply Hlast; lia.
Qed.

Lemma buildInv_step L k e s s' :
  emojis L !! k = Some e →
  emojiList s = L →
  buildInv L k s →
  buildStep k e s = Some s' →
  buildInv L (S k) s'.
Proof.
  intros He HL (Hv & Hm & Hn & Hk & Hc & Hd) Hb.
  pose proof (buildStep_nodup _ _ _ _ Hb Hd) as (Hd1 & Hd2 & Hd3).
  apply buildStep_spec in Hb as (_ & Hve & Hm' & Tn & Tk & Tc).
  rewrite HL in *. split_and!; try done.
  - rewrite (take_S_r _ _ _ He). apply Forall_app. split; [done|]. by constructor.
  - intros x i. rewrite Hm', <- (lastNamed_step L k e x i He).
    destruct (decide (em_name e = "__proto__"%string)) as [Hp|Hp].
    + rewrite Hp, setProp_proto, Hm.
      * destruct (decide (x = "__proto__"%string)) as [->|Hx];
          [split; intros [? _]; done|].
        rewrite lookup_insert_ne, lookup_empty by done. split; [|intros [? [[=]|[_ ?]]]; done].
        intros [_ ?]. split; [done|]. right. split; [congruence|done].
      * destruct (nameMap s !! "__proto__"%string) as [j|] eqn:Ej; [|done].
        apply Hm in Ej as [[] _]. done.
    + rewrite setProp_insert by done. destruct (decide (x = em_name e)) as [->|Hne].
      * rewrite !lookup_insert_eq.
        split; [intros ?; split; [done|by left]|intros [_ [?|[? _]]]; done].
      * rewrite !lookup_insert_ne, lookup_empty, Hm by done. split.
        -- intros [? ?]. split; [done|]. right. split; [congruence|done].
        -- intros [? [[=]|[_ ?]]]; done.
  - intros q Hq. eapply tagged_filter; eauto.
  - intros q Hq. eapply tagged_filter; eauto.
  - intros q Hq. eapply tagged_filter; eauto.
Qed.

Lemma buildLoop_inv L es : ∀ pre s s',
  emojis L = pre ++ es →
  emojiList s = L →
  buildInv L (length pre) s →
  buildLoop (length pre) es s = Some s' →
  buildInv L (length (emojis L)) s' ∧ emojiList s' = L.
Proof.
  induction es as [|e es IH]; intros pre s s' HL Hs Hi Hb; simpl in Hb.
  - inversion Hb; subst s'. rewrite HL, app_nil_r. done.
  - destruct (buildStep (length pre) e s) as [s1|] eqn:E1; simpl in Hb; [|done].
    assert (emojis L !! length pre = Some e) as He.
    { rewrite HL. by apply list_lookup_middle. }
    apply (IH (pre ++ [e]) s1 s').
    + by rewrite <- app_assoc.
    + apply buildStep_spec in E1 as (-> & _). done.
    + rewrite length_app. simpl. rewrite Nat.add_1_r. by eapply buildInv_step.
    + rewrite length_app. simpl. by rewrite Nat.add_1_r.
Qed.

Lemma buildLoop_total es : ∀ k s,
  Forall (validEmoji (emojiList s)) es → is_Some (buildLoop k es s).
Proof.
  induction es as [|e es IH]; intros k s Hf; simpl; [done|].
  inversion Hf as [|? ? He Hr]; subst.
  destruct (buildStep_total k e s He) as [s1 E1]. rewrite E1. simpl.
  apply IH. apply buildStep_spec in E1 as (-> & _). done.
Qed.

Lemma newEmojiSearcher_built L s :
  newEmojiSearcher L None = Some s → built L s.
Proof.
  unfold newEmojiSearcher, buildTries. simpl. intros Hb.
  apply (buildLoop_inv L (emojis L) []) in Hb as [(Hv & Hm & Hn & Hk & Hc & Hd) HL];
    [| done | done |].
  - rewrite firstn_all in Hv. by constructor.
  - simpl. split_and!.
    + constructor.
    + intros x i. cbn [nameMap]. rewrite lookup_empty. split; [done|].
      intros (_ & _ & ? & _). lia.
    + intros q _. cbn [nameTrieRoot]. by rewrite searchTrie_emptyNode.
    + intros q _. cbn [keywordTrieRoot]. by rewrite searchTrie_emptyNode.
    + intros q _. cbn [categoryTrieRoot]. by rewrite searchTrie_emptyNode.
    + apply outputs_nodup_emptyNode.
    + apply outputs_nodup_emptyNode.
    + apply outputs_nodup_emptyNode.
Qed.

Lemma newEmojiSearcher_total L :
  validCatalog L → is_Some (newEmojiSearcher L None).
Proof. intros Hv. unfold newEmojiSearcher, buildTries. by apply buildLoop_total. Qed.

Lemma freshSearcher_fresh L :
  validCatalog L → newEmojiSearcher L None = Some (freshSearcher L).
Proof.
  intros [s Hs]%newEmojiSearcher_total. unfold freshSearcher. by rewrite Hs.
Qed.

Lemma recordHas_lt L tx q i : recordHas L tx q i → i < length (emojis L).
Proof.
  unfold recordHas. destruct (emojis L !! i) eqn:E; [|done].
  intros _. by eapply lookup_lt_Some.
Qed.

Lemma elem_of_filter_recordHas L tx q i :
  i ∈ filter (recordHas L tx q) (seq 0 (length (emojis L))) ↔ recordHas L tx q i.
Proof.
  rewrite list_elem_of_filter, elem_of_seq. split; [tauto|].
  intros Hr. split; [done|]. apply recordHas_lt in Hr. lia.
Qed.

Lemma NoDup_filter_recordHas L tx q :
  NoDup (filter (recordHas L tx q) (seq 0 (length (emojis L)))).
Proof. apply NoDup_filter, NoDup_seq. Qed.

Lemma recordHas_name L q i :
  recordHas L nameTexts (chars q) i ↔ name_contains L q i.
Proof.
  unfold recordHas, name_contains, nameTexts. destruct (emojis L !! i) as [e|].
  - rewrite occursIn_cons, occursIn_nil. split.
    + intros [?|[]]. by exists e.
    + intros (e' & [= <-] & ?). by left.
  - split; [done|]. by intros (? & ? & _).
Qed.

Lemma recordHas_keyword L q i :
  recordHas L keywordTexts (chars q) i ↔ keyword_contains L q i.
Proof.
  unfold recordHas, keyword_contains, keywordTexts, occursIn.
  destruct (emojis L !! i) as [e|].
  - rewrite Exists_exists. split.
    + intros (kw & Hin & Hq). apply list_elem_of_omap in Hin as (k & Hk & Hkw).
      by exists e, k, kw.
    + intros (e' & k & kw & [= <-] & Hk & Hkw & Hq). exists kw. split; [|done].
      apply list_elem_of_omap. by exists k.
  - split; [done|]. by intros (? & ? & ? & ? & _).
Qed.

Lemma recordHas_category L q i :
  recordHas L categoryTexts (chars q) i ↔ category_contains L q i.
Proof.
  unfold recordHas, category_contains, categoryTexts.
  destruct (emojis L !! i) as [e|]; [|split; [done|by intros (? & ? & _)]].
  rewrite occursIn_app. split.
  - intros [Hc|Hs]; exists e; (split; [done|]).
    + left. destruct (category L !! em_category e) as [c|]; simpl in Hc.
      * apply occursIn_cons in Hc as [?|[]%occursIn_nil]. by exists c.
      * by apply occursIn_nil in Hc.
    + right. destruct (subCategory L !! em_category e) as [subs|]; simpl in Hs;
        [|by apply occursIn_nil in Hs].
      destruct (subs !! em_subCategory e) as [sc|] eqn:E; simpl in Hs;
        [|by apply occursIn_nil in Hs].
      apply occursIn_cons in Hs as [?|[]%occursIn_nil]. by exists subs, sc.
  - intros (e' & [= <-] & [(c & -> & Hq)|(subs & sc & -> & Hsc & Hq)]).
    + left. simpl. apply occursIn_cons. by left.
    + right. simpl. rewrite Hsc. simpl. apply occursIn_cons. by left.
Qed.

(* ================================================================== *)
(** ** Facts about the vote table *)

Lemma weightAt_empty i : weightAt ∅ i = 0.
Proof. unfold weightAt. by rewrite lookup_empty. Qed.

Lemma weightAt_addVote j w votes i :
  weightAt (addVote j w votes) i = weightAt votes i + (if decide (i = j) then w else 0).
Proof.
  unfold weightAt, addVote. destruct (decide (i = j)) as [->|Hne].
  - by rewrite lookup_insert_eq.
  - rewrite lookup_insert_ne by done. lia.
Qed.

Lemma weightAt_addVotes w ids : ∀ votes i,
  NoDup ids →
  weightAt (addVotes w ids votes) i =
  weightAt votes i + (if decide (i ∈ ids) then w else 0).
Proof.
  unfold addVotes. induction ids as [|j ids IH]; intros votes i Hn; cbn [foldl].
  - rewrite decide_False; [lia|]. by intros ?%elem_of_nil.
  - apply NoDup_cons in Hn as [Hj Hn]. rewrite IH, weightAt_addVote by done.
    pose proof (elem_of_cons ids i j) as Hc.
    destruct (decide (i ∈ ids)); destruct (decide (i ∈ j :: ids));
      destruct (decide (i = j)) as [E|Hne];
      solve [lia | exfalso; tauto | exfalso; congruence].
Qed.

Lemma weightAt_exactKeywordVotes k es : ∀ i0 votes i,
  weightAt (exactKeywordVotes k i0 es votes) i =
  weightAt votes i + (if decide (refsFrom k i0 es i) then 4 else 0).
Proof.
  induction es as [|e es IH]; intros i0 votes i; cbn [exactKeywordVotes].
  - rewrite decide_False; [lia|]. unfold refsFrom. rewrite lookup_nil. tauto.
  - rewrite IH.
    assert (refsFrom k i0 (e :: es) i ↔
            (i = i0 ∧ k ∈ em_keywords e) ∨ refsFrom k (S i0) es i) as Hr.
    { unfold refsFrom. destruct (decide (i = i0)) as [->|Hne].
      - rewrite Nat.sub_diag. simpl. split; [intros [_ ?]; by left|].
        intros [[_ ?]|[? _]]; [done|lia].
      - destruct (decide (i0 ≤ i)) as [Hle|Hgt].
        + replace (i - i0) with (S (i - S i0)) by lia. simpl.
          split; [intros [_ ?]; right; split; [lia|done]|].
          intros [[? _]|[_ ?]]; [done|]. done.
        + split; [intros [? _]; lia|]. intros [[? _]|[? _]]; [done|lia]. }
    case_bool_decide as Hk; rewrite ?weightAt_addVote;
      destruct (decide (refsFrom k (S i0) es i)) as [D|D];
      destruct (decide (refsFrom k i0 (e :: es) i)) as [D'|D'];
      destruct (decide (i = i0)) as [E|Hne];
      solve [lia | exfalso; unfold refsFrom in D; lia | exfalso; tauto].
Qed.

Lemma weightAt_Some votes i w : votes !! i = Some w → weightAt votes i = w.
Proof. unfold weightAt. by intros ->. Qed.

Lemma weightAt_pos votes i w : weightAt votes i = w → 0 < w → votes !! i = Some w.
Proof. unfold weightAt. destruct (votes !! i); simpl; intros; subst; [done|lia]. Qed.

Lemma elem_of_Object_entries o k w : (k, w) ∈ Object_entries o ↔ o !! k = Some w.
Proof.
  unfold Object_entries. rewrite merge_sort_Permutation. apply elem_of_map_to_list.
Qed.

Lemma NoDup_Object_entries o : NoDup (Object_entries o).*1.
Proof.
  unfold Object_entries. rewrite merge_sort_Permutation. apply NoDup_fst_map_to_list.
Qed.

#[global] Instance key_le_trans : Transitive key_le.
Proof. intros a b c. unfold key_le. lia. Qed.

#[global] Instance key_le_total : Total key_le.
Proof. intros a b. unfold key_le. lia. Qed.

(** [Object.entries] lists the votes by strictly ascending record id. *)
Lemma Object_entries_ascending o :
  StronglySorted (λ a b : nat * nat, a.1 < b.1) (Object_entries o).
Proof.
  pose proof (NoDup_Object_entries o) as Hn.
  pose proof (StronglySorted_merge_sort key_le (map_to_list o)) as Hs.
  fold (Object_entries o) in Hs.
  induction Hs as [|x l Hs IH Hx]; [constructor|].
  rewrite fmap_cons in Hn. apply NoDup_cons in Hn as [Hx' Hn].
  constructor; [by apply IH|].
  rewrite Forall_forall in Hx |- *. intros y Hy. specialize (Hx y Hy).
  unfold key_le in Hx.
  assert (x.1 ≠ y.1); [|lia].
  intros E. apply Hx'. rewrite E. by apply list_elem_of_fmap_2.
Qed.

Lemma indexOf_Some l x k :
  indexOf l x = Some k ↔
  l !! k = Some x ∧ ∀ j y, j < k → l !! j = Some y → y ≠ x.
Proof.
  unfold indexOf. split.
  - destruct (list_find _ l) as [[k' y]|] eqn:E; simpl; [|done].
    intros [= <-]. apply list_find_Some in E as (Hk & -> & Hfirst).
    split; [done|]. intros j y' Hj Hy. by eapply Hfirst.
  - intros [Hk Hfirst].
    assert (list_find (λ y, y = x) l = Some (k, x)) as ->; [|done].
    apply list_find_Some. split_and!; [done|done|]. intros j y Hy Hj. by eapply Hfirst.
Qed.

(** The vote table of a freshly built searcher holds, for each record, the
    sum of the weights of the signals of the ranking table. *)
Lemma tally_weight L s input i :
  built L s →
  trim input ≠ EmptyString →
  weightAt (tally s input) i = signalWeight s input i.
Proof.
  intros [HL Hv Hm Hn Hk Hc Hd] Hq%lowerInput_nonempty.
  unfold tally, signalWeight. rewrite HL.
  rewrite (Hn _ Hq), (Hk _ Hq), (Hc _ Hq).
  rewrite !weightAt_addVotes by apply NoDup_filter_recordHas.
  rewrite !(decide_ext _ _ _ _ (elem_of_filter_recordHas _ _ _ _)).
  do 3 f_equal.
  assert (∀ v, weightAt (match indexOf (keywords L) input with
                         | Some k => exactKeywordVotes k 0 (emojis L) v
                         | None => v
                         end) i =
               weightAt v i + (if decide (exactKeywordHit L input i) then 4 else 0)) as ->.
  { intros v. destruct (indexOf (keywords L) input) as [k|] eqn:E.
    - rewrite weightAt_exactKeywordVotes. f_equal. apply decide_ext.
      unfold exactKeywordHit. rewrite E. reflexivity.
    - rewrite decide_False; [lia|]. unfold exactKeywordHit. rewrite E. tauto. }
  f_equal. destruct (getProp (nameMap s) input) as [j| |] eqn:E.
  - apply getProp_Own in E. rewrite weightAt_addVote, weightAt_empty.
    destruct (decide (i = j)) as [->|Hne].
    + by rewrite decide_True.
    + rewrite decide_False; [done|]. unfold exactNameHit. congruence.
  - apply getProp_Inherited in E as [E _]. rewrite weightAt_empty.
    rewrite decide_False; [done|]. unfold exactNameHit. congruence.
  - apply getProp_Undefined in E as [E _]. rewrite weightAt_empty.
    rewrite decide_False; [done|]. unfold exactNameHit. congruence.
Qed.

(** Any signal points at a record of the catalog. *)
Lemma signalWeight_lt L s input i :
  built L s → 0 < signalWeight s input i → i < length (emojis L).
Proof.
  intros [HL Hv Hm Hn Hk Hc Hd]. unfold signalWeight. rewrite HL.
  destruct (decide (exactNameHit s input i)) as [D1|_].
  { intros _. apply Hm in D1 as (_ & _ & ? & _). done. }
  destruct (decide (exactKeywordHit L input i)) as [D2|_].
  { intros _. unfold exactKeywordHit in D2. destruct (indexOf _ _); [|done].
    destruct D2 as [_ D2]. rewrite Nat.sub_0_r in D2.
    destruct (emojis L !! i) eqn:E; [|done]. by eapply lookup_lt_Some. }
  destruct (decide (recordHas L nameTexts _ i)) as [D|_]; [intros _; by eapply recordHas_lt|].
  destruct (decide (recordHas L keywordTexts _ i)) as [D|_]; [intros _; by eapply recordHas_lt|].
  destruct (decide (recordHas L categoryTexts _ i)) as [D|_]; [intros _; by eapply recordHas_lt|].
  simpl. lia.
Qed.

(* ================================================================== *)
(** ** Facts about materialization and the result list *)

Lemma mapM_fmap {X Y Z} (f : Y → option Z) (g : X → Y) (l : list X) :
  mapM f (g <$> l) = mapM (f ∘ g) l.
Proof.
  induction l as [|x l IH]; [done|].
  change (mapM f (g <$> x :: l))
    with (y ← f (g x); k ← mapM f (g <$> l); mret (y :: k)).
  by rewrite IH.
Qed.

(** A member of [Object.prototype] is no blank query. *)
Lemma objectPrototypeKeys_nonblank input :
  input ∈ objectPrototypeKeys → toLowerCase (trim input) ≠ EmptyString.
Proof.
  revert input. apply Forall_forall.
  unfold objectPrototypeKeys. repeat (constructor; [by vm_compute|]). constructor.
Qed.

Lemma strayVote_true s input :
  strayVote s input = true ↔
  nameMap s !! input = None ∧ input ∈ objectPrototypeKeys.
Proof.
  unfold strayVote. rewrite <- getProp_Inherited.
  destruct (getProp (nameMap s) input); split; done.
Qed.

Lemma strayVote_false s input :
  strayVote s input = false ↔
  (input ∈ objectPrototypeKeys → is_Some (nameMap s !! input)).
Proof.
  rewrite <- not_true_iff_false, strayVote_true, <- not_eq_None_Some.
  destruct (decide (input ∈ objectPrototypeKeys)); tauto.
Qed.

(** [search] raises on a stray vote and otherwise materializes the hits. *)
Lemma search_searchHits s input :
  search s input =
  if strayVote s input then None
  else mapM (λ h, intoHumanReadable s h.1 h.2) (searchHits s input).
Proof.
  unfold search, searchHits. case_decide as Hq.
  - rewrite mapM_fmap. destruct (strayVote s input) eqn:E; [|done].
    apply strayVote_true in E as [_ E]. by apply objectPrototypeKeys_nonblank in E.
  - destruct (strayVote s input); [done|]. by rewrite mapM_fmap.
Qed.

Lemma search_Some s input rs :
  search s input = Some rs →
  strayVote s input = false ∧
  mapM (λ h, intoHumanReadable s h.1 h.2) (searchHits s input) = Some rs.
Proof. rewrite search_searchHits. by destruct (strayVote s input). Qed.

(** After the build a name has an entry exactly when some record carries
    it and it is not "__proto__", which the table can only inherit. *)
Lemma lastNamed_exists L x :
  x ∈ em_name <$> emojis L → ∃ i, lastNamed L (length (emojis L)) x i.
Proof.
  unfold lastNamed. induction (emojis L) as [|e es IH] using rev_ind.
  - by intros ?%elem_of_nil.
  - rewrite fmap_app, elem_of_app, length_app. simpl. rewrite Nat.add_1_r.
    destruct (decide (em_name e = x)) as [Hx|Hx].
    + intros _. exists (length es). split_and!.
      * exists e. split; [|done]. by apply list_lookup_middle.
      * lia.
      * intros; lia.
    + intros [Hin|Hin%list_elem_of_singleton]; [|done].
      destruct (IH Hin) as (i & (e0 & He0 & Hn) & Hlt & Hlast). exists i. split_and!.
      * exists e0. split; [|done]. by rewrite lookup_app_l.
      * lia.
      * intros j e' Hij Hj. destruct (decide (j = length es)) as [->|Hne].
        -- rewrite list_lookup_middle by done. by intros [= <-].
        -- rewrite lookup_app_l by lia. apply Hlast; lia.
Qed.

Lemma built_nameMap_is_Some L s x :
  built L s →
  is_Some (nameMap s !! x) ↔ x ≠ "__proto__"%string ∧ x ∈ em_name <$> emojis L.
Proof.
  intros Hb. split.
  - intros [i Hi]. apply (built_nameMap _ _ Hb) in Hi as (Hx & (e & He & Hn) & _).
    split; [done|]. apply list_elem_of_fmap. exists e. split; [done|].
    by eapply list_elem_of_lookup_2.
  - intros [Hx Hin]. destruct (lastNamed_exists L x Hin) as [i Hi].
    exists i. by apply (built_nameMap _ _ Hb).
Qed.

(** On a freshly built searcher the lookup is safe exactly when it casts
    no stray vote. *)
Lemma built_strayVote L s input :
  built L s → strayVote s input = false ↔ lookupSafe L input.
Proof.
  intros Hb. rewrite strayVote_false. unfold lookupSafe.
  by setoid_rewrite (built_nameMap_is_Some L s input Hb).
Qed.

Lemma intoHumanReadable_total s i w :
  validCatalog (emojiList s) →
  i < length (emojis (emojiList s)) →
  is_Some (intoHumanReadable s i w).
Proof.
  intros Hv Hi. unfold intoHumanReadable.
  destruct (lookup_lt_is_Some_2 _ _ Hi) as [e He]. rewrite He. simpl.
  unfold validCatalog in Hv. rewrite Forall_forall in Hv.
  destruct (Hv e) as (_ & _ & [sc Hs]); [by eapply list_elem_of_lookup_2|].
  destruct (subCategory _ !! _); simpl in *; [done|done].
Qed.

Lemma intoHumanReadable_fields s i w r :
  intoHumanReadable s i w = Some r →
  ∃ e, emojis (emojiList s) !! i = Some e ∧
       hr_emoji r = em_emoji e ∧ hr_name r = em_name e ∧ hr_weight r = w.
Proof.
  unfold intoHumanReadable. intros Hr.
  destruct (emojis _ !! i) as [e|]; simpl in Hr; [|done].
  destruct (subCategory _ !! _); simpl in Hr; [|done].
  inversion Hr; subst. by exists e.
Qed.

(** The hits of a non-blank query are the entries of the vote table that
    pass the filter. *)
Lemma elem_of_searchHits s input i w :
  trim input ≠ EmptyString →
  (i, w) ∈ searchHits s input ↔
  ∃ n, w = Some n ∧ tally s input !! i = Some n ∧ 3 < n.
Proof.
  intros Hq. unfold searchHits. rewrite decide_False by by rewrite toLowerCase_empty.
  rewrite list_elem_of_fmap. split.
  - intros ([k n] & [= -> ->] & Hin). simpl.
    apply list_elem_of_filter in Hin as [Hp Hin]. apply elem_of_Object_entries in Hin.
    by exists n.
  - intros (n & -> & Ht & Hn). exists (i, n). split; [done|].
    apply list_elem_of_filter. split; [done|]. by apply elem_of_Object_entries.
Qed.

Lemma NoDup_searchHits s input : NoDup (searchHits s input).*1.
Proof.
  unfold searchHits. case_decide.
  - rewrite <- list_fmap_compose. simpl. rewrite list_fmap_id. apply NoDup_seq.
  - rewrite <- list_fmap_compose.
    replace (fst ∘ (λ e : nat * nat, (e.1, Some e.2))) with (fst : nat * nat → nat) by done.
    apply NoDup_fmap_fst.
    + intros k w1 w2 H1 H2.
      apply list_elem_of_filter in H1 as [_ H1]. apply list_elem_of_filter in H2 as [_ H2].
      apply elem_of_Object_entries in H1, H2. congruence.
    + apply NoDup_filter. eapply NoDup_fmap_1. apply NoDup_Object_entries.
Qed.

Lemma StronglySorted_filter {X} (R : relation X) (P : X → Prop)
    `{∀ x, Decision (P x)} (l : list X) :
  StronglySorted R l → StronglySorted R (filter P l).
Proof.
  induction 1 as [|x l Hs IH Hx]; [constructor|].
  rewrite filter_cons. destruct (decide (P x)); [|done].
  constructor; [done|]. rewrite Forall_forall in Hx |- *.
  intros y [_ Hy]%list_elem_of_filter. by apply Hx.
Qed.

Lemma StronglySorted_seq a n : StronglySorted lt (seq a n).
Proof.
  revert a. induction n as [|n IH]; intros a; simpl; constructor; [apply IH|].
  apply Forall_forall. intros x Hx%elem_of_seq. lia.
Qed.

Lemma StronglySorted_fst_lt {Y} (l : list (nat * Y)) :
  StronglySorted (λ a b, a.1 < b.1) l → StronglySorted lt l.*1.
Proof.
  induction 1 as [|x l Hs IH Hx]; [constructor|].
  rewrite fmap_cons. constructor; [done|]. by apply Forall_fmap.
Qed.

(** The hits come in strictly ascending order of record id. *)
Lemma searchHits_ascending s input : StronglySorted lt (searchHits s input).*1.
Proof.
  unfold searchHits. case_decide.
  - rewrite <- list_fmap_compose. simpl. rewrite list_fmap_id. apply StronglySorted_seq.
  - rewrite <- list_fmap_compose.
    replace (fst ∘ (λ e : nat * nat, (e.1, Some e.2))) with (fst : nat * nat → nat) by done.
    apply StronglySorted_fst_lt, StronglySorted_filter, Object_entries_ascending.
Qed.

Lemma built_searchHits L s input i w :
  built L s →
  trim input ≠ EmptyString →
  (i, w) ∈ searchHits s input ↔
  w = Some (signalWeight s input i) ∧ 3 < signalWeight s input i.
Proof.
  intros Hb Hq. rewrite elem_of_searchHits by done.
  rewrite <- (tally_weight L s input i Hb Hq). split.
  - intros (n & -> & Ht & Hn). apply weightAt_Some in Ht. by rewrite Ht.
  - intros [-> Hn]. eexists. split; [done|]. split; [|done].
    apply weightAt_pos; [done|lia].
Qed.

Lemma built_search_total L s input :
  built L s →
  trim input ≠ EmptyString →
  lookupSafe L input →
  ∃ rs, search s input = Some rs ∧
        Forall2 (λ h r, intoHumanReadable s h.1 h.2 = Some r) (searchHits s input) rs.
Proof.
  intros Hb Hq Hsafe. rewrite search_searchHits.
  rewrite (proj2 (built_strayVote L s input Hb) Hsafe).
  destruct (mapM_is_Some_2 (λ h, intoHumanReadable s h.1 h.2) (searchHits s input))
    as [rs Hrs].
  { apply Forall_forall. intros [i w] Hin. simpl.
    apply (built_searchHits L s input i w Hb Hq) in Hin as [_ Hw].
    apply intoHumanReadable_total.
    - rewrite (built_list _ _ Hb). apply (built_valid _ _ Hb).
    - rewrite (built_list _ _ Hb). apply (signalWeight_lt L s input i Hb). lia. }
  exists rs. split; [done|]. by apply mapM_Some_1.
Qed.

(** [search] on a freshly built searcher raises exactly on a stray vote. *)
Lemma built_search_is_Some L s input :
  built L s → is_Some (search s input) ↔ lookupSafe L input.
Proof.
  intros Hb. split.
  - intros [rs [Hs _]%search_Some]. by apply (built_strayVote L s).
  - intros Hsafe. destruct (decide (trim input = EmptyString)) as [Hq|Hq].
    + rewrite search_searchHits, (proj2 (built_strayVote L s input Hb) Hsafe).
      apply mapM_is_Some_2, Forall_forall. intros [i w] Hin. simpl.
      unfold searchHits in Hin. rewrite Hq in Hin. cbn [toLowerCase] in Hin.
      rewrite decide_True in Hin by done.
      apply list_elem_of_fmap in Hin as (j & [= -> ->] & Hj%elem_of_seq).
      apply intoHumanReadable_total; [|lia].
      rewrite (built_list _ _ Hb). apply (built_valid _ _ Hb).
    + destruct (built_search_total L s input Hb Hq Hsafe) as (rs & -> & _). done.
Qed.

(** A record whose signals add up to more than 3 is in the result list. *)
Lemma built_search_includes L s input i :
  built L s →
  trim input ≠ EmptyString →
  lookupSafe L input →
  3 < signalWeight s input i →
  ∃ rs r, search s input = Some rs ∧
          (i, Some (signalWeight s input i)) ∈ searchHits s input ∧
          intoHumanReadable s i (Some (signalWeight s input i)) = Some r ∧
          r ∈ rs.
Proof.
  intros Hb Hq Hsafe Hw.
  destruct (built_search_total L s input Hb Hq Hsafe) as (rs & Hs & Hf).
  assert ((i, Some (signalWeight s input i)) ∈ searchHits s input) as Hin.
  { by apply (built_searchHits L s input i _ Hb Hq). }
  pose proof Hin as Hin'. apply list_elem_of_lookup in Hin' as [n Hn].
  destruct (Forall2_lookup_l _ _ _ _ _ Hf Hn) as (r & Hr & Hm).
  exists rs, r. split_and!; try done. by eapply list_elem_of_lookup_2.
Qed.

Lemma getAll_spec s :
  validCatalog (emojiList s) →
  ∃ rs, getAll s = Some rs ∧
        length rs = length (emojis (emojiList s)) ∧
        ∀ i e, emojis (emojiList s) !! i = Some e →
               ∃ r, rs !! i = Some r ∧ intoHumanReadable s i None = Some r ∧
                    hr_emoji r = em_emoji e ∧ hr_name r = em_name e ∧
                    hr_weight r = None.
Proof.
  intros Hv. unfold getAll.
  destruct (mapM_is_Some_2 (λ i, intoHumanReadable s i None)
              (seq 0 (length (emojis (emojiList s))))) as [rs Hrs].
  { apply Forall_forall. intros i Hi%elem_of_seq. simpl.
    apply intoHumanReadable_total; [done|lia]. }
  exists rs. split; [done|]. apply mapM_Some_1 in Hrs.
  split.
  - apply Forall2_length in Hrs. by rewrite length_seq in Hrs.
  - intros i e He.
    destruct (Forall2_lookup_l _ _ _ i i Hrs) as (r & Hr & Hm).
    { apply lookup_seq_lt. by eapply lookup_lt_Some. }
    exists r. split_and!; [done|done|..];
      apply intoHumanReadable_fields in Hm as (e' & He' & ? & ? & ?);
      rewrite He in He'; inversion He'; by subst.
Qed.

Lemma findIndex_Some es g i :
  findIndex es g = Some i ↔
  ∃ e, es !! i = Some e ∧ em_emoji e = g ∧
       ∀ j e', j < i → es !! j = Some e' → em_emoji e' ≠ g.
Proof.
  unfold findIndex. split.
  - destruct (list_find _ es) as [[i' e]|] eqn:E; simpl; [|done].
    intros [= <-]. apply list_find_Some in E as (Hi & Hg & Hfirst).
    exists e. split_and!; [done|done|]. intros j e' Hj He'. by eapply Hfirst.
  - intros (e & Hi & Hg & Hfirst).
    assert (list_find (λ emoji, em_emoji emoji = g) es = Some (i, e)) as ->; [|done].
    apply list_find_Some. split_and!; [done|done|]. intros j e' He' Hj. by eapply Hfirst.
Qed.

Lemma findIndex_None es g :
  findIndex es g = None ↔ g ∉ em_emoji <$> es.
Proof.
  unfold findIndex. rewrite fmap_None, list_find_None, Forall_forall.
  rewrite list_elem_of_fmap. split.
  - intros Hno (e & -> & Hin). by apply (Hno e).
  - intros Hno e Hin Hg. apply Hno. by exists e.
Qed.

Lemma getCommonFrom_spec s glyphs :
  validCatalog (emojiList s) →
  ∃ rs, getCommonFrom s glyphs = Some rs ∧
        hr_emoji <$> rs =
          filter (λ g, g ∈ em_emoji <$> emojis (emojiList s)) glyphs ∧
        Forall (λ r, hr_emoji r ∈ glyphs ∧ hr_weight r = None ∧
                     ∃ i e, emojis (emojiList s) !! i = Some e ∧
                            em_emoji e = hr_emoji r ∧
                            intoHumanReadable s i None = Some r) rs.
Proof.
  intros Hv. induction glyphs as [|g glyphs (rs & Hrs & Hg & Hf)].
  - exists []. by split_and!.
  - cbn [getCommonFrom]. rewrite filter_cons.
    destruct (findIndex (emojis (emojiList s)) g) as [idx|] eqn:E.
    + pose proof E as (e & He & Heg & _)%findIndex_Some.
      destruct (intoHumanReadable_total s idx None Hv) as [r Hr];
        [by eapply lookup_lt_Some|].
      rewrite Hr, Hrs. simpl. exists (r :: rs).
      pose proof Hr as (e' & He' & Hre & _ & Hw)%intoHumanReadable_fields.
      rewrite He in He'. inversion He'; subst e'.
      split_and!; [done| |].
      * rewrite decide_True.
        -- rewrite fmap_cons, Hg. f_equal. congruence.
        -- apply list_elem_of_fmap. exists e. split; [done|].
           by eapply list_elem_of_lookup_2.
      * constructor.
        -- split_and!; [rewrite Hre, Heg; by left|done|]. exists idx, e. by split_and!.
        -- eapply Forall_impl; [done|]. intros r' (? & ? & ?). split_and!; [by right|done..].
    + exists rs. apply findIndex_None in E. rewrite decide_False by done.
      split_and!; [done|done|].
      eapply Forall_impl; [done|]. intros r' (? & ? & ?). split_and!; [by right|done..].
Qed.

(** Every entry [search] returns for a non-blank query carries a weight
    above 3. *)
Lemma search_weights s input rs :
  trim input ≠ EmptyString →
  search s input = Some rs →
  Forall (λ r, ∃ n, hr_weight r = Some n ∧ 3 < n ∧ rank r = n) rs.
Proof.
  intros Hq [_ Hs]%search_Some. apply mapM_Some_1 in Hs.
  apply Forall_forall. intros r Hr. apply list_elem_of_lookup in Hr as [k Hk].
  destruct (Forall2_lookup_r _ _ _ _ _ Hs Hk) as ([i w] & Hh & Hm). simpl in Hm.
  apply list_elem_of_lookup_2 in Hh.
  apply elem_of_searchHits in Hh as (n & -> & _ & Hn); [|done].
  apply intoHumanReadable_fields in Hm as (_ & _ & _ & _ & Hw).
  exists n. split_and!; [done|done|]. unfold rank, weightOf. rewrite Hw.
  destruct n; [lia|done].
Qed.

(* ================================================================== *)
(** ** Facts about sorting *)

Section SortFacts.
Context {T : Type} (cmp : T → T → Z) (rk : T → nat).
Hypothesis cmp_le : ∀ x y, (cmp x y <=? 0)%Z = true → rk y ≤ rk x.
Hypothesis cmp_gt :
  ∀ x y, (cmp x y <=? 0)%Z = false → rk x ≤ rk y ∧ (rk x = rk y → rk x = 0).

Lemma sort_insert_Permutation x l : sort_insert cmp x l ≡ₚ x :: l.
Proof.
  induction l as [|y l IH]; simpl; [done|].
  destruct (cmp x y <=? 0)%Z; [done|]. rewrite IH. apply Permutation_swap.
Qed.

Lemma sort_Permutation l : sort cmp l ≡ₚ l.
Proof.
  induction l as [|x l IH]; simpl; [done|].
  rewrite sort_insert_Permutation. by rewrite IH.
Qed.

Lemma sort_insert_sorted x l :
  StronglySorted (λ a b, rk b ≤ rk a) l →
  StronglySorted (λ a b, rk b ≤ rk a) (sort_insert cmp x l).
Proof using cmp_le cmp_gt.
  induction l as [|y l IH]; intros Hs; simpl.
  - by repeat constructor.
  - apply StronglySorted_inv in Hs as [Hs Hy].
    destruct (cmp x y <=? 0)%Z eqn:E.
    + apply cmp_le in E. constructor; [by constructor|].
      constructor; [done|]. eapply Forall_impl; [done|]. simpl. intros; lia.
    + apply cmp_gt in E as [E _]. constructor; [by apply IH|].
      rewrite sort_insert_Permutation. by constructor.
Qed.

Lemma sort_sorted l : StronglySorted (λ a b, rk b ≤ rk a) (sort cmp l).
Proof using cmp_le cmp_gt.
  induction l as [|x l IH]; simpl; [constructor|]. by apply sort_insert_sorted.
Qed.

Lemma sort_insert_stable w x l :
  0 < w →
  filter (λ r, rk r = w) (sort_insert cmp x l) = filter (λ r, rk r = w) (x :: l).
Proof using cmp_gt.
  intros Hw. induction l as [|y l IH]; simpl; [done|].
  destruct (cmp x y <=? 0)%Z eqn:E; [done|].
  apply cmp_gt in E as [E1 E2].
  rewrite (filter_cons _ y), IH, !(filter_cons _ x), (filter_cons _ y).
  destruct (decide (rk y = w)); destruct (decide (rk x = w)); try done.
  exfalso. lia.
Qed.

Lemma sort_stable w l :
  0 < w → filter (λ r, rk r = w) (sort cmp l) = filter (λ r, rk r = w) l.
Proof using cmp_gt.
  intros Hw. induction l as [|x l IH]; simpl; [done|].
  rewrite sort_insert_stable by done. by rewrite !filter_cons, IH.
Qed.

End SortFacts.

Lemma truthy_rank r : truthy (hr_weight r) = true → 0 < rank r.
Proof.
  unfold rank, weightOf. destruct (hr_weight r) as [[|n]|]; simpl; [done| |done].
  intros _. lia.
Qed.

Lemma falsy_rank r : truthy (hr_weight r) = false → rank r = 0.
Proof. unfold rank. by intros ->. Qed.

Lemma compareFn_le a b : (compareFn a b <=? 0)%Z = true → rank b ≤ rank a.
Proof.
  unfold compareFn.
  destruct (truthy (hr_weight a)) eqn:Ea; destruct (truthy (hr_weight b)) eqn:Eb; simpl.
  - unfold rank. rewrite Ea, Eb. intros ?%Z.leb_le. lia.
  - intros _. rewrite (falsy_rank b Eb). lia.
  - intros ?%Z.leb_le. lia.
  - intros _. rewrite (falsy_rank b Eb). lia.
Qed.

Lemma compareFn_gt a b :
  (compareFn a b <=? 0)%Z = false →
  rank a ≤ rank b ∧ (rank a = rank b → rank a = 0).
Proof.
  unfold compareFn.
  destruct (truthy (hr_weight a)) eqn:Ea; destruct (truthy (hr_weight b)) eqn:Eb; simpl.
  - unfold rank. rewrite Ea, Eb. intros ?%Z.leb_gt. lia.
  - intros ?%Z.leb_gt. lia.
  - intros _. rewrite (falsy_rank a Ea). lia.
  - intros _. rewrite (falsy_rank a Ea). lia.
Qed.

(** Between two weighted entries the comparator looks at the weights
    only: on equal weights it answers 0, whatever the glyphs. *)
Lemma compareFn_tie a b :
  truthy (hr_weight a) = true → truthy (hr_weight b) = true →
  weightOf a = weightOf b → compareFn a b = 0%Z.
Proof. unfold compareFn. intros -> -> ->. simpl. lia. Qed.

(* ================================================================== *)
(** ** The worked example *)

Ltac valid_catalog := repeat constructor; simpl; eexists; reflexivity.
Ltac crunch := vm_compute; reflexivity.
Ltac concrete := first [ apply freshSearcher_fresh; valid_catalog | crunch ].

Lemma partyCatalog_valid : validCatalog partyCatalog.
Proof. valid_catalog. Qed.

Lemma partySearcher_fresh : newEmojiSearcher partyCatalog None = Some partySearcher.
Proof. apply freshSearcher_fresh, partyCatalog_valid. Qed.

(** The worked example of the catalog with the single record
    "party popper". *)
Example party_exact_name :
  glyphWeights (search partySearcher "party popper") = Some [("🎉", Some 8)].
Proof. crunch. Qed.

Example party_exact_keyword :
  glyphWeights (search partySearcher "celebration") = Some [("🎉", Some 6)].
Proof. crunch. Qed.

Example party_substring_only :
  glyphWeights (search partySearcher "part") = Some [] ∧
  weightAt (tally partySearcher "part") 0 = 3.
Proof. split; crunch. Qed.

Example party_blank :
  glyphWeights (search partySearcher "") = Some [("🎉", None)].
Proof. crunch. Qed.

Example party_common :
  glyphWeights (getCommon partySearcher) = Some [("🎉", None)].
Proof. crunch. Qed.

Example overlapping_suffixes :
  searchTrie (insertIntoTrie emptyNode (chars "banana") 7) (chars "an") = [7].
Proof. crunch. Qed.

(** The engine does not cap the result list; the caller does. *)
Example display_truncates :
  let L := mkCatalog ["fox"] (replicate 40 (mkEmoji "x" "red fox" [0])) in
  (length <$> search (freshSearcher L) "fox") = Some 40 ∧
  (match throttledSearch (Some "fox") (freshSearcher L) with
   | Some (Some shown) => Some (length shown)
   | _ => None
   end) = Some 32.
Proof. split; crunch. Qed.

(* ================================================================== *)
(** ** The substring indices *)

(** C1 (as amended): once the index is built from a catalog, for every
    non-empty query [q], looking the lower-cased [q] up in the name trie
    yields exactly the ids of the records whose lower-cased name contains
    it as a contiguous substring, each id once; likewise the keyword trie
    (some referenced keyword contains it) and the category trie (the
    category or the subcategory name contains it). *)
Theorem substring_index_correct L s q :
  newEmojiSearcher L None = Some s →
  q ≠ EmptyString →
  let lq := toLowerCase q in
  (∀ i, i ∈ searchTrie (nameTrieRoot s) (chars lq) ↔ name_contains L lq i) ∧
  (∀ i, i ∈ searchTrie (keywordTrieRoot s) (chars lq) ↔ keyword_contains L lq i) ∧
  (∀ i, i ∈ searchTrie (categoryTrieRoot s) (chars lq) ↔ category_contains L lq i) ∧
  NoDup (searchTrie (nameTrieRoot s) (chars lq)) ∧
  NoDup (searchTrie (keywordTrieRoot s) (chars lq)) ∧
  NoDup (searchTrie (categoryTrieRoot s) (chars lq)).
Proof.
  intros [HL Hv Hm Hn Hk Hc Hd]%newEmojiSearcher_built Hq lq.
  assert (chars lq ≠ []) as Hlq.
  { unfold lq. by rewrite chars_empty, toLowerCase_empty. }
  rewrite (Hn _ Hlq), (Hk _ Hlq), (Hc _ Hlq). split_and!.
  - intros i. by rewrite elem_of_filter_recordHas, recordHas_name.
  - intros i. by rewrite elem_of_filter_recordHas, recordHas_keyword.
  - intros i. by rewrite elem_of_filter_recordHas, recordHas_category.
  - apply NoDup_filter_recordHas.
  - apply NoDup_filter_recordHas.
  - apply NoDup_filter_recordHas.
Qed.

Lemma substring_index_correct_witness :
  newEmojiSearcher partyCatalog None = Some partySearcher ∧
  ("Part"%string ≠ EmptyString) ∧
  (∀ i, i ∈ searchTrie (nameTrieRoot partySearcher) (chars (toLowerCase "Part")) ↔
        name_contains partyCatalog (toLowerCase "Part") i).
Proof.
  split; [exact partySearcher_fresh|]. split; [discriminate|].
  exact (proj1 (substring_index_correct partyCatalog partySearcher "Part"
                  partySearcher_fresh ltac:(discriminate))).
Defined.

(** C1 (as stated) fails at the empty query: every name contains the empty
    string, but the root of the trie is never tagged. *)
Lemma substring_index_empty_query :
  newEmojiSearcher partyCatalog None = Some partySearcher ∧
  ¬ (∀ i, i ∈ searchTrie (nameTrieRoot partySearcher) (chars (toLowerCase "")) ↔
          name_contains partyCatalog (toLowerCase "") i).
Proof.
  split; [exact partySearcher_fresh|]. intros Hall.
  assert (name_contains partyCatalog (toLowerCase "") 0) as Hc.
  { eexists. split; [reflexivity|]. by eexists [], _. }
  apply Hall in Hc. vm_compute in Hc. by apply elem_of_nil in Hc.
Qed.

(* ================================================================== *)
(** ** De-duplicated outputs *)

(** C9: in every trie of a built index each node lists a record id at
    most once, and every call of [insertIntoTrie] preserves that. *)
Theorem output_dedup_invariant L s :
  newEmojiSearcher L None = Some s →
  (outputs_nodup (nameTrieRoot s) ∧ outputs_nodup (keywordTrieRoot s) ∧
   outputs_nodup (categoryTrieRoot s)) ∧
  (∀ (root : Trie) text emojiIdx,
     outputs_nodup root → outputs_nodup (insertIntoTrie root text emojiIdx)).
Proof.
  intros [HL Hv Hm Hn Hk Hc Hd]%newEmojiSearcher_built. split; [done|].
  intros root text emojiIdx. apply outputs_nodup_insertIntoTrie.
Qed.

Lemma output_dedup_invariant_witness :
  newEmojiSearcher partyCatalog None = Some partySearcher ∧
  outputs_nodup (nameTrieRoot partySearcher).
Proof.
  split; [exact partySearcher_fresh|].
  exact (proj1 (proj1 (output_dedup_invariant partyCatalog partySearcher
                         partySearcher_fresh))).
Defined.

(* ================================================================== *)
(** ** The filter and the exact matches *)

(** C2: for a query that is non-empty after trimming, [search] returns a
    list exactly when the exact-name lookup does not fall through to a
    member the table inherits (otherwise it raises), and the list it
    returns holds exactly the records whose accumulated weight exceeds 3,
    each carrying that weight; a record of weight 3 or less is left out, in
    particular one whose only signal is a substring match on its name. *)
Theorem search_filter_threshold L s input :
  newEmojiSearcher L None = Some s →
  trim input ≠ EmptyString →
  let lq := toLowerCase (trim input) in
  (is_Some (search s input) ↔ lookupSafe L input) ∧
  (∀ rs, search s input = Some rs →
     Forall2 (λ h r, intoHumanReadable s h.1 h.2 = Some r) (searchHits s input) rs ∧
     Forall (λ r, ∃ n, hr_weight r = Some n ∧ 3 < n) rs) ∧
  (∀ i, weightAt (tally s input) i = signalWeight s input i) ∧
  (∀ i w, (i, w) ∈ searchHits s input ↔
          w = Some (weightAt (tally s input) i) ∧ 3 < weightAt (tally s input) i) ∧
  (∀ i, weightAt (tally s input) i ≤ 3 → i ∉ (searchHits s input).*1) ∧
  (∀ i, ¬ exactNameHit s input i → ¬ exactKeywordHit L input i →
        name_contains L lq i →
        ¬ keyword_contains L lq i → ¬ category_contains L lq i →
        weightAt (tally s input) i = 3 ∧ i ∉ (searchHits s input).*1).
Proof.
  intros Hb%newEmojiSearcher_built Hq lq.
  assert (∀ i, weightAt (tally s input) i ≤ 3 → i ∉ (searchHits s input).*1) as Hout.
  { intros i Hw ([i' w] & -> & Hin)%list_elem_of_fmap. simpl in Hw.
    apply (built_searchHits L s input i' w Hb Hq) in Hin as [_ Hin].
    rewrite (tally_weight L s input i' Hb Hq) in Hw. lia. }
  split_and!; try done.
  - by apply built_search_is_Some.
  - intros rs [_ Hf%mapM_Some_1]%search_Some. split; [done|].
    apply Forall_forall. intros r Hr. apply list_elem_of_lookup in Hr as [n Hn].
    destruct (Forall2_lookup_r _ _ _ _ _ Hf Hn) as ([i w] & Hh & Hm). simpl in Hm.
    apply list_elem_of_lookup_2 in Hh.
    apply (built_searchHits L s input i w Hb Hq) in Hh as [-> Hw].
    apply intoHumanReadable_fields in Hm as (_ & _ & _ & _ & ->). by eexists.
  - intros i. by apply (tally_weight L).
  - intros i w. rewrite (tally_weight L s input i Hb Hq).
    apply (built_searchHits L s input i w Hb Hq).
  - intros i H1 H2 H3 H4 H5.
    assert (weightAt (tally s input) i = 3) as Hw.
    { rewrite (tally_weight L) by done. unfold signalWeight.
      rewrite (built_list _ _ Hb). fold lq.
      rewrite <- recordHas_name in H3. rewrite <- recordHas_keyword in H4.
      rewrite <- recordHas_category in H5.
      rewrite (decide_False _ _ H1), (decide_False _ _ H2), (decide_True _ _ H3),
        (decide_False _ _ H4), (decide_False _ _ H5). done. }
    split; [done|]. apply Hout. lia.
Qed.

Lemma search_filter_threshold_witness :
  (is_Some (search partySearcher "part") ↔ lookupSafe partyCatalog "part") ∧
  (∀ rs, search partySearcher "part" = Some rs →
         Forall (λ r, ∃ n, hr_weight r = Some n ∧ 3 < n) rs) ∧
  weightAt (tally partySearcher "part") 0 = 3 ∧
  0 ∉ (searchHits partySearcher "part").*1.
Proof.
  destruct (search_filter_threshold partyCatalog partySearcher "part"
              partySearcher_fresh ltac:(discriminate))
    as (Hsome & Hrs & _ & _ & Hout & _).
  split_and!; [exact Hsome|intros rs Hs; exact (proj2 (Hrs rs Hs))|reflexivity|].
  apply Hout. vm_compute. lia.
Defined.

(** C3 (as amended): for every non-blank query other than "__proto__"
    that equals, exactly as it is passed to [search], the name of a record,
    the record the exact-name table keeps for that name (the last record
    so named) receives the weight-5 signal, has a total weight of at least
    5 and is in the result list. *)
Theorem exact_name_match L s input i e :
  newEmojiSearcher L None = Some s →
  trim input ≠ EmptyString →
  input ≠ "__proto__"%string →
  emojis L !! i = Some e →
  em_name e = input →
  (∀ j e', i < j → emojis L !! j = Some e' → em_name e' ≠ input) →
  exactNameHit s input i ∧
  ∃ rs r w, search s input = Some rs ∧
            weightAt (tally s input) i = w ∧ 5 ≤ w ∧
            intoHumanReadable s i (Some w) = Some r ∧ r ∈ rs.
Proof.
  intros Hb%newEmojiSearcher_built Hq Hp He Hn Hlast.
  assert (exactNameHit s input i) as Hx.
  { apply (built_nameMap _ _ Hb). split; [done|]. split_and!.
    - by exists e.
    - by eapply lookup_lt_Some.
    - intros j e' Hij _. by apply Hlast. }
  split; [done|].
  assert (5 ≤ signalWeight s input i) as Hw.
  { unfold signalWeight. rewrite (decide_True _ _ Hx). lia. }
  assert (lookupSafe L input) as Hsafe.
  { apply (built_strayVote L s input Hb), strayVote_false. intros _. by exists i. }
  destruct (built_search_includes L s input i Hb Hq Hsafe)
    as (rs & r & Hs & _ & Hr & Hin); [lia|].
  exists rs, r, (signalWeight s input i). split_and!; try done.
  by apply (tally_weight L).
Qed.

Lemma exact_name_match_witness :
  exactNameHit partySearcher "party popper" 0 ∧
  ∃ rs r w, search partySearcher "party popper" = Some rs ∧
            weightAt (tally partySearcher "party popper") 0 = w ∧ 5 ≤ w ∧
            intoHumanReadable partySearcher 0 (Some w) = Some r ∧ r ∈ rs.
Proof.
  apply (exact_name_match partyCatalog partySearcher "party popper" 0
           (mkEmoji "🎉" "party popper" [0])).
  - exact partySearcher_fresh.
  - discriminate.
  - discriminate.
  - reflexivity.
  - reflexivity.
  - intros j e' Hj He'. destruct j as [|j]; [lia|]. discriminate He'.
Defined.

(** C3 (as stated) fails in four ways.  A query with a leading blank
    trims to the name of record 0, yet the exact-name table is asked for
    the untrimmed string: the record is left with weight 3 and is filtered
    out.  Of two records named "ox" only the last receives the weight-5
    signal.  A blank query that equals an empty name yields the unweighted
    listing.  And a record named "__proto__" gets no entry in the table:
    the lookup yields the inherited member and [search] raises. *)
Lemma exact_name_untrimmed_or_shadowed :
  (newEmojiSearcher partyCatalog None = Some partySearcher ∧
   em_name <$> emojis partyCatalog !! 0 = Some (trim " party popper") ∧
   weightAt (tally partySearcher " party popper") 0 = 3 ∧
   search partySearcher " party popper" = Some []) ∧
  (newEmojiSearcher twinNameCatalog None = Some twinNameSearcher ∧
   em_name <$> emojis twinNameCatalog !! 0 = Some (trim "ox") ∧
   weightAt (tally twinNameSearcher "ox") 0 = 3 ∧
   glyphWeights (search twinNameSearcher "ox") = Some [("b", Some 8)]) ∧
  (newEmojiSearcher blankCatalog None = Some blankSearcher ∧
   em_name <$> emojis blankCatalog !! 0 = Some (trim "") ∧
   glyphWeights (search blankSearcher "") = Some [("a", None)]) ∧
  (newEmojiSearcher protoCatalog None = Some protoSearcher ∧
   em_name <$> emojis protoCatalog !! 0 = Some (trim "__proto__") ∧
   nameMap protoSearcher !! "__proto__"%string = None ∧
   getProp (nameMap protoSearcher) "__proto__" = Inherited ∧
   weightAt (tally protoSearcher "__proto__") 0 = 3 ∧
   search protoSearcher "__proto__" = None).
Proof. split_and!; concrete. Qed.

(** C4 (as amended): for every non-blank query that equals, exactly as it
    is passed to [search], a keyword string, and whose exact-name lookup
    does not fall through to a member the table inherits, every record
    that references the first id under which that keyword is listed
    receives the weight-4 signal, has a total weight of at least 4 and is
    in the result list. *)
Theorem exact_keyword_match L s input k i e :
  newEmojiSearcher L None = Some s →
  trim input ≠ EmptyString →
  lookupSafe L input →
  keywords L !! k = Some input →
  (∀ j kw, j < k → keywords L !! j = Some kw → kw ≠ input) →
  emojis L !! i = Some e →
  k ∈ em_keywords e →
  exactKeywordHit L input i ∧
  ∃ rs r w, search s input = Some rs ∧
            weightAt (tally s input) i = w ∧ 4 ≤ w ∧
            intoHumanReadable s i (Some w) = Some r ∧ r ∈ rs.
Proof.
  intros Hb%newEmojiSearcher_built Hq Hsafe Hk Hfirst He Hin.
  assert (exactKeywordHit L input i) as Hx.
  { unfold exactKeywordHit.
    rewrite (proj2 (indexOf_Some (keywords L) input k) (conj Hk Hfirst)).
    unfold refsFrom. rewrite Nat.sub_0_r, He. split; [lia|done]. }
  split; [done|].
  assert (4 ≤ signalWeight s input i) as Hw.
  { unfold signalWeight. rewrite (built_list _ _ Hb).
    rewrite (decide_True _ _ Hx). lia. }
  destruct (built_search_includes L s input i Hb Hq Hsafe)
    as (rs & r & Hs & _ & Hr & Hin'); [lia|].
  exists rs, r, (signalWeight s input i). split_and!; try done.
  by apply (tally_weight L).
Qed.

Lemma exact_keyword_match_witness :
  exactKeywordHit partyCatalog "celebration" 0 ∧
  ∃ rs r w, search partySearcher "celebration" = Some rs ∧
            weightAt (tally partySearcher "celebration") 0 = w ∧ 4 ≤ w ∧
            intoHumanReadable partySearcher 0 (Some w) = Some r ∧ r ∈ rs.
Proof.
  apply (exact_keyword_match partyCatalog partySearcher "celebration" 0 0
           (mkEmoji "🎉" "party popper" [0])).
  - exact partySearcher_fresh.
  - discriminate.
  - by apply (bool_decide_unpack _).
  - reflexivity.
  - intros j kw Hj. lia.
  - reflexivity.
  - simpl. apply list_elem_of_here.
Defined.

(** C4 (as stated) fails in four ways.  A query with a leading blank
    trims to the keyword, yet [indexOf] is asked for the untrimmed string:
    the record is left with weight 2.  When a keyword string is listed
    under two ids, a record that references the second one gets no
    exact-keyword vote.  A blank query that equals an empty keyword yields
    the unweighted listing.  And for the keyword "constructor", which no
    record is named, the exact-name lookup yields the inherited member:
    the record gets its weight 6 but [search] raises. *)
Lemma exact_keyword_untrimmed_or_shadowed :
  (newEmojiSearcher partyCatalog None = Some partySearcher ∧
   keywords partyCatalog !! 0 = Some (trim " celebration") ∧
   em_keywords <$> emojis partyCatalog !! 0 = Some [0] ∧
   weightAt (tally partySearcher " celebration") 0 = 2 ∧
   search partySearcher " celebration" = Some []) ∧
  (newEmojiSearcher twinKeywordCatalog None = Some twinKeywordSearcher ∧
   keywords twinKeywordCatalog !! 1 = Some (trim "joy") ∧
   em_keywords <$> emojis twinKeywordCatalog !! 0 = Some [1] ∧
   weightAt (tally twinKeywordSearcher "joy") 0 = 2 ∧
   search twinKeywordSearcher "joy" = Some []) ∧
  (newEmojiSearcher blankCatalog None = Some blankSearcher ∧
   keywords blankCatalog !! 0 = Some (trim "") ∧
   em_keywords <$> emojis blankCatalog !! 0 = Some [0] ∧
   glyphWeights (search blankSearcher "") = Some [("a", None)]) ∧
  (newEmojiSearcher builderCatalog None = Some builderSearcher ∧
   keywords builderCatalog !! 0 = Some (trim "constructor") ∧
   em_keywords <$> emojis builderCatalog !! 0 = Some [0] ∧
   getProp (nameMap builderSearcher) "constructor" = Inherited ∧
   weightAt (tally builderSearcher "constructor") 0 = 6 ∧
   search builderSearcher "constructor" = None).
Proof. split_and!; concrete. Qed.

(* ================================================================== *)
(** ** Listings, snapshots and the result list *)

(** C5: for a query that is empty after trimming, [search] returns what
    [getAll] returns: one entry per catalog record, in catalog order, each
    without a weight. *)
Theorem search_blank_lists_all s input :
  validCatalog (emojiList s) →
  trim input = EmptyString →
  ∃ rs, search s input = Some rs ∧ getAll s = Some rs ∧
        length rs = length (emojis (emojiList s)) ∧
        ∀ i e, emojis (emojiList s) !! i = Some e →
               ∃ r, rs !! i = Some r ∧ intoHumanReadable s i None = Some r ∧
                    hr_emoji r = em_emoji e ∧ hr_name r = em_name e ∧
                    hr_weight r = None.
Proof.
  intros Hv Hq. destruct (getAll_spec s Hv) as (rs & Hg & Hlen & Hrs).
  exists rs. split_and!; try done.
  unfold search. rewrite Hq. cbn [toLowerCase]. rewrite decide_True by done. exact Hg.
Qed.

Lemma search_blank_lists_all_witness :
  ∃ rs, search partySearcher "  " = Some rs ∧ getAll partySearcher = Some rs ∧
        length rs = length (emojis (emojiList partySearcher)) ∧
        ∀ i e, emojis (emojiList partySearcher) !! i = Some e →
               ∃ r, rs !! i = Some r ∧
                    intoHumanReadable partySearcher i None = Some r ∧
                    hr_emoji r = em_emoji e ∧ hr_name r = em_name e ∧
                    hr_weight r = None.
Proof.
  apply (search_blank_lists_all partySearcher "  ").
  - exact partyCatalog_valid.
  - reflexivity.
Defined.

(** C6: a searcher constructed from the snapshot of a freshly built one is
    that searcher again: same vote tables, same hits, same results. *)
Theorem snapshot_roundtrip L s :
  newEmojiSearcher L None = Some s →
  ∃ s', newEmojiSearcher L (Some (toJSON s)) = Some s' ∧
        s' = s ∧
        ∀ input, tally s' input = tally s input ∧
                 searchHits s' input = searchHits s input ∧
                 search s' input = search s input.
Proof.
  intros [HL _ _ _ _ _ _]%newEmojiSearcher_built.
  eexists. split; [reflexivity|]. unfold toJSON. simpl.
  assert ({| emojiList := L; nameTrieRoot := nameTrieRoot s;
             keywordTrieRoot := keywordTrieRoot s;
             categoryTrieRoot := categoryTrieRoot s; nameMap := nameMap s |} = s) as ->.
  { destruct s. simpl in *. by subst. }
  done.
Qed.

Lemma snapshot_roundtrip_witness :
  newEmojiSearcher partyCatalog None = Some partySearcher ∧
  ∃ s', newEmojiSearcher partyCatalog (Some (toJSON partySearcher)) = Some s' ∧
        s' = partySearcher ∧
        ∀ input, tally s' input = tally partySearcher input ∧
                 searchHits s' input = searchHits partySearcher input ∧
                 search s' input = search partySearcher input.
Proof.
  split; [exact partySearcher_fresh|].
  exact (snapshot_roundtrip partyCatalog partySearcher partySearcher_fresh).
Defined.

(** C8: [getCommon] returns the curated glyphs that occur in the catalog,
    in the order of the curated list, skipping the others; every entry is
    the materialization of a catalog record carrying that glyph. *)
Theorem getCommon_curated s :
  validCatalog (emojiList s) →
  ∃ rs, getCommon s = Some rs ∧
        hr_emoji <$> rs =
          filter (λ g, g ∈ em_emoji <$> emojis (emojiList s)) commonEmojis ∧
        Forall (λ r, hr_emoji r ∈ commonEmojis ∧ hr_weight r = None ∧
                     ∃ i e, emojis (emojiList s) !! i = Some e ∧
                            em_emoji e = hr_emoji r ∧
                            intoHumanReadable s i None = Some r) rs.
Proof. apply getCommonFrom_spec. Qed.

Lemma getCommon_curated_witness :
  ∃ rs, getCommon partySearcher = Some rs ∧
        hr_emoji <$> rs =
          filter (λ g, g ∈ em_emoji <$> emojis (emojiList partySearcher)) commonEmojis ∧
        Forall (λ r, hr_emoji r ∈ commonEmojis ∧ hr_weight r = None ∧
                     ∃ i e, emojis (emojiList partySearcher) !! i = Some e ∧
                            em_emoji e = hr_emoji r ∧
                            intoHumanReadable partySearcher i None = Some r) rs.
Proof. apply (getCommon_curated partySearcher). exact partyCatalog_valid. Defined.

(** C10: the list [search] returns is the materialization of a list of
    hits in which every record id occurs at most once, for blank and
    non-blank queries alike; the ids even come in ascending order.  When
    the exact-name lookup yields an inherited member [search] raises and
    returns no list. *)
Theorem search_no_duplicates s input :
  search s input =
    (if strayVote s input then None
     else mapM (λ h, intoHumanReadable s h.1 h.2) (searchHits s input)) ∧
  NoDup (searchHits s input).*1 ∧
  StronglySorted lt (searchHits s input).*1.
Proof.
  split_and!; [apply search_searchHits|apply NoDup_searchHits|apply searchHits_ascending].
Qed.

(* ================================================================== *)
(** ** The caller-side ranking *)

(** C7 (as amended): for a non-blank query the list the caller displays is
    the first 32 entries of the search output stably sorted by descending
    weight, an entry without weight ranking below every entry with one;
    entries of equal weight keep the order in which [search] returned
    them, the glyphs being compared only when neither entry has a weight.
    The cut to 32 entries is the caller's. *)
Theorem display_ranking searcher input result :
  trim input ≠ EmptyString →
  search searcher (trim input) = Some result →
  let sorted := sort compareFn result in
  throttledSearch (Some input) searcher = Some (Some (take 32 sorted)) ∧
  sorted ≡ₚ result ∧
  StronglySorted (λ a b, rank b ≤ rank a) sorted ∧
  (∀ w, 0 < w → filter (λ r, rank r = w) sorted = filter (λ r, rank r = w) result) ∧
  Forall (λ r, ∃ n, hr_weight r = Some n ∧ 3 < n ∧ rank r = n) result ∧
  (∀ a b, a ∈ result → b ∈ result → rank a = rank b → compareFn a b = 0%Z) ∧
  (∀ l, StronglySorted (λ a b, rank b ≤ rank a) (sort compareFn l)).
Proof.
  intros Hq Hs sorted.
  assert (Forall (λ r, ∃ n, hr_weight r = Some n ∧ 3 < n ∧ rank r = n) result) as Hw.
  { eapply search_weights; [|done]. by rewrite trim_idemp. }
  split_and!.
  - unfold throttledSearch. simpl. rewrite decide_False by done. by rewrite Hs.
  - apply sort_Permutation.
  - apply sort_sorted; [apply compareFn_le|apply compareFn_gt].
  - intros w Hpos. apply (sort_stable compareFn rank compareFn_gt w result Hpos).
  - done.
  - rewrite Forall_forall in Hw. intros a b Ha Hb Hr.
    destruct (Hw a Ha) as (na & Hna & Hna3 & Hra).
    destruct (Hw b Hb) as (nb & Hnb & Hnb3 & Hrb).
    apply compareFn_tie.
    + rewrite Hna. destruct na; [lia|done].
    + rewrite Hnb. destruct nb; [lia|done].
    + unfold weightOf. rewrite Hna, Hnb. simpl. lia.
  - intros l. apply sort_sorted; [apply compareFn_le|apply compareFn_gt].
Qed.

Lemma display_ranking_witness :
  let result := default [] (search partySearcher (trim " celebration ")) in
  throttledSearch (Some " celebration ") partySearcher =
    Some (Some (take 32 (sort compareFn result))) ∧
  sort compareFn result ≡ₚ result ∧
  StronglySorted (λ a b, rank b ≤ rank a) (sort compareFn result).
Proof.
  intros result.
  destruct (display_ranking partySearcher " celebration " result
              ltac:(discriminate) ltac:(vm_compute; reflexivity))
    as (H1 & H2 & H3 & _).
  split_and!; [exact H1|exact H2|exact H3].
Defined.

(** C7 (as stated) fails on a tie: the two entries have the same weight,
    the comparator answers 0 without comparing glyphs, and the entry with
    the greater glyph stays in front. *)
Lemma display_tie_keeps_search_order :
  newEmojiSearcher tieCatalog None = Some tieSearcher ∧
  glyphWeights (search tieSearcher "ca") = Some [("b", Some 5); ("a", Some 5)] ∧
  (match throttledSearch (Some "ca") tieSearcher with
   | Some shown => glyphWeights shown
   | None => None
   end) = Some [("b", Some 5); ("a", Some 5)] ∧
  localeCompare "b" "a" = 1%Z.
Proof. split_and!; concrete. Qed.

(* ================================================================== *)
(** ** Further properties of the suffix trie *)

Lemma infix_of_trans {A} (p t u : list A) :
  infix_of p t → infix_of t u → infix_of p u.
Proof.
  intros (a & b & ->) (c & d & ->). exists (c ++ a), (b ++ d).
  by rewrite <- !app_assoc.
Qed.

Lemma infix_of_app_l {A} (p q t : list A) : infix_of (p ++ q) t → infix_of p t.
Proof. intros (a & b & ->). exists a, (q ++ b). by rewrite <- app_assoc. Qed.

Lemma prefix_infix_of {A} (p t : list A) : p `prefix_of` t → infix_of p t.
Proof. intros [k ->]. by exists [], k. Qed.

Lemma pushOutput_present {A} `{Countable A} (node : TrieNode (A := A)) i :
  i ∈ output node → pushOutput node i = node.
Proof. intros Hi. unfold pushOutput. by rewrite bool_decide_true. Qed.

(** Walking a string all of whose non-empty prefixes already carry the id
    changes nothing. *)
Lemma insertPath_covered {A} `{Countable A} (s : list A) : ∀ (t : TrieNode (A := A)) i,
  (∀ p, p ≠ [] → p `prefix_of` s → i ∈ searchTrie t p) →
  insertPath t s i = t.
Proof.
  induction s as [|c s IH]; intros t i Hcov; [done|].
  cbn [insertPath].
  assert (i ∈ searchTrie t [c]) as Hc.
  { apply Hcov; [done|]. apply prefix_cons, prefix_nil. }
  rewrite searchTrie_cons, searchTrie_nil in Hc.
  destruct (children t !! c) as [child|] eqn:E; simpl in Hc;
    [|by apply elem_of_nil in Hc].
  simpl. rewrite (pushOutput_present child i Hc).
  rewrite IH.
  - rewrite insert_id by done. by destruct t.
  - intros p Hp Hpre. specialize (Hcov (c :: p) ltac:(done) (prefix_cons _ _ _ Hpre)).
    rewrite searchTrie_cons, E in Hcov. done.
Qed.

Lemma insertIntoTrie_covered {A} `{Countable A} (text : list A) :
  ∀ (t : TrieNode (A := A)) i,
  (∀ p, p ≠ [] → infix_of p text → i ∈ searchTrie t p) →
  insertIntoTrie t text i = t.
Proof.
  induction text as [|c text IH]; intros t i Hcov; [done|].
  cbn [insertIntoTrie]. rewrite insertPath_covered.
  - apply IH. intros p Hp Hin. apply Hcov; [done|]. apply infix_of_cons. by right.
  - intros p Hp Hpre. apply Hcov; [done|]. by apply prefix_infix_of.
Qed.

(** X1: [insertIntoTrie] only ever appends the inserted id: the output
    found under any path before the call is a prefix of the output found
    after it, and the membership of every other id is unchanged. *)
Theorem insertIntoTrie_monotone {A} `{Countable A}
    (t : TrieNode (A := A)) (text p : list A) (i : nat) :
  searchTrie t p `prefix_of` searchTrie (insertIntoTrie t text i) p ∧
  ∀ j, j ≠ i → (j ∈ searchTrie (insertIntoTrie t text i) p ↔ j ∈ searchTrie t p).
Proof.
  rewrite searchTrie_insertIntoTrie. case_decide as D.
  - split.
    + unfold addIdx. case_bool_decide; [done|]. by apply prefix_app_r.
    + intros j Hj. rewrite elem_of_addIdx. tauto.
  - split; done.
Qed.

(** X2: inserting, for the same record, a text that occurs inside a text
    inserted before leaves the trie as it is; in particular inserting the
    same text twice is the same as inserting it once. *)
Theorem insertIntoTrie_absorbs {A} `{Countable A}
    (t : TrieNode (A := A)) (text text' : list A) (i : nat) :
  infix_of text' text →
  insertIntoTrie (insertIntoTrie t text i) text' i = insertIntoTrie t text i.
Proof.
  intros Hin. apply insertIntoTrie_covered. intros p Hp Hp'.
  rewrite searchTrie_insertIntoTrie. rewrite decide_True.
  - apply elem_of_addIdx. by right.
  - split; [done|]. by eapply infix_of_trans.
Qed.

Lemma insertIntoTrie_absorbs_witness :
  insertIntoTrie (insertIntoTrie (emptyNode (A := ascii)) (chars "party") 0)
    (chars "art") 0 =
  insertIntoTrie emptyNode (chars "party") 0.
Proof.
  apply (insertIntoTrie_absorbs emptyNode (chars "party") (chars "art") 0).
  by exists (chars "p"), (chars "y").
Defined.

Lemma tagged_root (t t' : Trie) texts i :
  tagged t t' texts i → searchTrie t' [] = searchTrie t [].
Proof. intros Ht. rewrite Ht. rewrite decide_False; [done|]. by intros [? _]. Qed.

Lemma buildLoop_root es : ∀ i s s',
  buildLoop i es s = Some s' →
  searchTrie (nameTrieRoot s') [] = searchTrie (nameTrieRoot s) [] ∧
  searchTrie (keywordTrieRoot s') [] = searchTrie (keywordTrieRoot s) [] ∧
  searchTrie (categoryTrieRoot s') [] = searchTrie (categoryTrieRoot s) [].
Proof.
  induction es as [|e es IH]; intros i s s' Hb; simpl in Hb.
  - by inversion Hb.
  - destruct (buildStep i e s) as [s1|] eqn:E; simpl in Hb; [|done].
    apply IH in Hb as (-> & -> & ->).
    apply buildStep_spec in E as (_ & _ & _ & Tn & Tk & Tc).
    by rewrite (tagged_root _ _ _ _ Tn), (tagged_root _ _ _ _ Tk), (tagged_root _ _ _ _ Tc).
Qed.

(** X4: in a freshly built searcher the root of each trie carries no id:
    looking the empty string up yields nothing, whatever the catalog. *)
Theorem empty_lookup_is_empty L s :
  newEmojiSearcher L None = Some s →
  searchTrie (nameTrieRoot s) [] = [] ∧
  searchTrie (keywordTrieRoot s) [] = [] ∧
  searchTrie (categoryTrieRoot s) [] = [].
Proof.
  unfold newEmojiSearcher, buildTries. simpl. intros Hb.
  apply buildLoop_root in Hb as (-> & -> & ->). done.
Qed.

Lemma empty_lookup_is_empty_witness :
  searchTrie (nameTrieRoot partySearcher) [] = [] ∧
  searchTrie (keywordTrieRoot partySearcher) [] = [] ∧
  searchTrie (categoryTrieRoot partySearcher) [] = [].
Proof. exact (empty_lookup_is_empty partyCatalog partySearcher partySearcher_fresh). Defined.

Lemma filter_sublist_impl {X} (P Q : X → Prop) `{∀ x, Decision (P x)}
    `{∀ x, Decision (Q x)} (l : list X) :
  (∀ x, P x → Q x) → filter P l `sublist_of` filter Q l.
Proof.
  intros HPQ. induction l as [|x l IH]; [done|].
  rewrite !filter_cons. destruct (decide (P x)) as [Hp|Hp].
  - rewrite decide_True by auto. by constructor.
  - destruct (decide (Q x)); [by constructor|done].
Qed.

Lemma recordHas_app_l L tx p q j : recordHas L tx (p ++ q) j → recordHas L tx p j.
Proof.
  unfold recordHas, occursIn. destruct (emojis L !! j); [|done].
  intros Hx. eapply Exists_impl; [done|]. intros t. apply infix_of_app_l.
Qed.

(** X5: in a freshly built searcher, extending a non-empty query never
    brings in a record: the ids found for [p ++ q] are a sublist of the
    ids found for [p], in each of the three tries. *)
Theorem longer_query_narrows L s (p q : list ascii) :
  newEmojiSearcher L None = Some s →
  p ≠ [] →
  searchTrie (nameTrieRoot s) (p ++ q) `sublist_of` searchTrie (nameTrieRoot s) p ∧
  searchTrie (keywordTrieRoot s) (p ++ q) `sublist_of` searchTrie (keywordTrieRoot s) p ∧
  searchTrie (categoryTrieRoot s) (p ++ q) `sublist_of` searchTrie (categoryTrieRoot s) p.
Proof.
  intros [HL Hv Hm Hn Hk Hc Hd]%newEmojiSearcher_built Hp.
  assert (p ++ q ≠ []) as Hpq by (by destruct p).
  rewrite (Hn _ Hp), (Hn _ Hpq), (Hk _ Hp), (Hk _ Hpq), (Hc _ Hp), (Hc _ Hpq).
  split_and!; apply filter_sublist_impl; intros j; apply recordHas_app_l.
Qed.

Lemma longer_query_narrows_witness :
  searchTrie (nameTrieRoot partySearcher) (chars "pa" ++ chars "r")
    `sublist_of` searchTrie (nameTrieRoot partySearcher) (chars "pa").
Proof.
  exact (proj1 (longer_query_narrows partyCatalog partySearcher (chars "pa") (chars "r")
                  partySearcher_fresh ltac:(discriminate))).
Defined.

(* ================================================================== *)
(** ** Further properties of the constructor *)

(** X6: without a snapshot the constructor raises exactly when some record
    refers to a keyword, a category or a subcategory that the catalog
    does not have. *)
Theorem constructor_succeeds_iff_valid L :
  is_Some (newEmojiSearcher L None) ↔ validCatalog L.
Proof.
  split.
  - intros [s Hs]. apply newEmojiSearcher_built in Hs. apply (built_valid _ _ Hs).
  - apply newEmojiSearcher_total.
Qed.

(** X7: after the build the exact-name table has an own entry for exactly
    the names other than "__proto__" that occur in the catalog, and the
    entry of a name is the last record of that name.  Reading a name
    yields an inherited member exactly when the name is one of the members
    of [Object.prototype] and is "__proto__" or the name of no record. *)
Theorem nameMap_last_writer L s x :
  newEmojiSearcher L None = Some s →
  (is_Some (nameMap s !! x) ↔ x ≠ "__proto__"%string ∧ x ∈ em_name <$> emojis L) ∧
  (∀ i, nameMap s !! x = Some i →
        getProp (nameMap s) x = Own i ∧
        (∃ e, emojis L !! i = Some e ∧ em_name e = x) ∧
        ∀ j e', i < j → emojis L !! j = Some e' → em_name e' ≠ x) ∧
  (getProp (nameMap s) x = Inherited ↔
   x ∈ objectPrototypeKeys ∧
   (x = "__proto__"%string ∨ x ∉ em_name <$> emojis L)).
Proof.
  intros Hb%newEmojiSearcher_built. pose proof (built_nameMap _ _ Hb) as Hm.
  pose proof (built_nameMap_is_Some L s x Hb) as Hsome.
  split_and!; [done| |].
  - intros i Hi. split; [by apply getProp_Own|].
    apply Hm in Hi as (_ & Hex & Hlt & Hl). split; [done|]. intros j e' Hij He'.
    eapply Hl; [done| |done]. by eapply lookup_lt_Some.
  - rewrite getProp_Inherited, eq_None_not_Some, Hsome.
    destruct (decide (x = "__proto__"%string)), (decide (x ∈ em_name <$> emojis L));
      tauto.
Qed.

Lemma nameMap_last_writer_witness :
  (is_Some (nameMap twinNameSearcher !! "ox") ↔
   "ox"%string ≠ "__proto__"%string ∧ "ox" ∈ em_name <$> emojis twinNameCatalog) ∧
  (∀ i, nameMap twinNameSearcher !! "ox" = Some i →
        getProp (nameMap twinNameSearcher) "ox" = Own i ∧
        (∃ e, emojis twinNameCatalog !! i = Some e ∧ em_name e = "ox") ∧
        ∀ j e', i < j → emojis twinNameCatalog !! j = Some e' → em_name e' ≠ "ox") ∧
  (getProp (nameMap twinNameSearcher) "ox" = Inherited ↔
   "ox" ∈ objectPrototypeKeys ∧
   ("ox"%string = "__proto__"%string ∨ "ox" ∉ em_name <$> emojis twinNameCatalog)).
Proof.
  apply (nameMap_last_writer twinNameCatalog twinNameSearcher "ox").
  apply freshSearcher_fresh. valid_catalog.
Defined.

Lemma jsNameLoop_fields es : ∀ i s,
  jsNameLoop i es s =
  {| emojiList := emojiList s;
     nameTrieRoot := namesTrie i es (nameTrieRoot s);
     keywordTrieRoot := keywordTrieRoot s;
     categoryTrieRoot := categoryTrieRoot s;
     nameMap := namesMap i es (nameMap s) |}.
Proof.
  induction es as [|e es IH]; intros i s; simpl; [by destruct s|]. by rewrite IH.
Qed.

Lemma jsKeywordLoop_fields es : ∀ i s,
  jsKeywordLoop i es s =
  t ← keywordsTrie (emojiList s) i es (keywordTrieRoot s);
  Some {| emojiList := emojiList s;
          nameTrieRoot := nameTrieRoot s;
          keywordTrieRoot := t;
          categoryTrieRoot := categoryTrieRoot s;
          nameMap := nameMap s |}.
Proof.
  induction es as [|e es IH]; intros i s; simpl; [by destruct s|].
  destruct (insertKeywords _ _ _ _) as [t1|]; simpl; [|done]. by rewrite IH.
Qed.

Lemma jsCategoryLoop_fields es : ∀ i s,
  jsCategoryLoop i es s =
  t ← categoriesTrie (emojiList s) i es (categoryTrieRoot s);
  Some {| emojiList := emojiList s;
          nameTrieRoot := nameTrieRoot s;
          keywordTrieRoot := keywordTrieRoot s;
          categoryTrieRoot := t;
          nameMap := nameMap s |}.
Proof.
  induction es as [|e es IH]; intros i s; simpl; [by destruct s|].
  unfold categoryStep.
  destruct (category _ !! _) as [c|]; simpl; [|done].
  destruct (subCategory _ !! _) as [subs|]; simpl; [|done].
  destruct (subs !! _) as [sc|]; simpl; [|done]. by rewrite IH.
Qed.

Lemma buildLoop_fields es : ∀ i s,
  buildLoop i es s =
  kt ← keywordsTrie (emojiList s) i es (keywordTrieRoot s);
  ct ← categoriesTrie (emojiList s) i es (categoryTrieRoot s);
  Some {| emojiList := emojiList s;
          nameTrieRoot := namesTrie i es (nameTrieRoot s);
          keywordTrieRoot := kt;
          categoryTrieRoot := ct;
          nameMap := namesMap i es (nameMap s) |}.
Proof.
  induction es as [|e es IH]; intros i s; simpl; [by destruct s|].
  unfold buildStep, categoryStep.
  destruct (insertKeywords _ _ _ _) as [kt1|]; simpl; [|done].
  destruct (category _ !! _) as [c|]; simpl.
  2: { by destruct (keywordsTrie _ _ _ _). }
  destruct (subCategory _ !! _) as [subs|]; simpl.
  2: { by destruct (keywordsTrie _ _ _ _). }
  destruct (subs !! _) as [sc|]; simpl.
  2: { by destruct (keywordsTrie _ _ _ _). }
  by rewrite IH.
Qed.

(** X8: the bundled searcher, which fills the three tries in three
    separate loops, constructs the same searcher as the single loop of
    search-emoji.ts, and raises on the same catalogs. *)
Theorem jsNewEmojiSearcher_agrees L :
  jsNewEmojiSearcher L = newEmojiSearcher L None.
Proof.
  unfold jsNewEmojiSearcher, jsBuildTries, newEmojiSearcher, buildTries.
  rewrite buildLoop_fields, jsNameLoop_fields, jsKeywordLoop_fields. simpl.
  destruct (keywordsTrie _ _ _ _) as [kt|]; simpl; [|done].
  rewrite jsCategoryLoop_fields. simpl. done.
Qed.

(* ================================================================== *)
(** ** Further properties of search *)

(** X9: on a freshly built searcher [search] raises exactly when the
    query, as passed, is the name of a member of [Object.prototype] and
    is "__proto__" or the name of no record; on every other query, blank
    or not, it returns a list. *)
Theorem search_raises_iff_inherited L s input :
  newEmojiSearcher L None = Some s →
  (search s input = None ↔
   input ∈ objectPrototypeKeys ∧
   (input = "__proto__"%string ∨ input ∉ em_name <$> emojis L)) ∧
  (is_Some (search s input) ↔ lookupSafe L input).
Proof.
  intros Hb%newEmojiSearcher_built.
  pose proof (built_search_is_Some L s input Hb) as Hsome. split; [|done].
  rewrite eq_None_not_Some, Hsome. unfold lookupSafe.
  destruct (decide (input ∈ objectPrototypeKeys)),
    (decide (input = "__proto__"%string)),
    (decide (input ∈ em_name <$> emojis L)); tauto.
Qed.

Lemma search_raises_iff_inherited_witness :
  search builderSearcher "constructor" = None ∧
  is_Some (search builderSearcher "builder").
Proof.
  destruct (search_raises_iff_inherited builderCatalog builderSearcher "constructor"
              ltac:(apply freshSearcher_fresh; valid_catalog)) as [Hnone _].
  destruct (search_raises_iff_inherited builderCatalog builderSearcher "builder"
              ltac:(apply freshSearcher_fresh; valid_catalog)) as [_ Hsome].
  split.
  - apply Hnone. split; [by apply (bool_decide_unpack _)|].
    right. by apply (bool_decide_unpack _).
  - apply Hsome. by apply (bool_decide_unpack _).
Defined.




Lemma chars_toLowerCase s : chars (toLowerCase s) = lowerChar <$> chars s.
Proof.
  induction s as [|c s IH]; [done|].
  change (lowerChar c :: chars (toLowerCase s) = lowerChar c :: (lowerChar <$> chars s)).
  by rewrite IH.
Qed.

Lemma infix_of_fmap {X Y} (f : X → Y) (p t : list X) :
  infix_of p t → infix_of (f <$> p) (f <$> t).
Proof. intros (a & b & ->). exists (f <$> a), (f <$> b). by rewrite !fmap_app. Qed.

Lemma chars_trimStart s : ∃ a, chars s = a ++ chars (trimStart s).
Proof.
  induction s as [|c s [a IH]]; simpl; [by exists []|].
  destruct (isWhiteSpace c); [|by exists []].
  exists (c :: a). simpl. by rewrite <- IH.
Qed.

Lemma chars_trimEnd s : ∃ b, chars s = chars (trimEnd s) ++ b.
Proof.
  induction s as [|c s [b IH]]; simpl; [by exists []|].
  destruct (trimEnd s) as [|c' r] eqn:E.
  - simpl in IH. destruct (isWhiteSpace c).
    + exists (c :: chars s). done.
    + exists (chars s). done.
  - exists b. simpl in *. by rewrite IH.
Qed.

Lemma infix_of_trim s : infix_of (chars (trim s)) (chars s).
Proof.
  unfold trim. destruct (chars_trimStart s) as [a Ha].
  destruct (chars_trimEnd (trimStart s)) as [b Hb].
  exists a, b. by rewrite <- Hb.
Qed.

(** The lower-cased, trimmed query occurs in the lower-cased query. *)
Lemma lowerInput_infix input :
  infix_of (chars (toLowerCase (trim input))) (chars (toLowerCase input)).
Proof. rewrite !chars_toLowerCase. apply infix_of_fmap, infix_of_trim. Qed.

(** X11: a record that takes the exact-name vote also takes the
    name-substring vote: for a non-blank query other than "__proto__"
    equal, as passed, to the name of the last record so named, that record
    is returned with a weight of at least 8. *)
Theorem exact_name_scores_eight L s input i e :
  newEmojiSearcher L None = Some s →
  trim input ≠ EmptyString →
  input ≠ "__proto__"%string →
  emojis L !! i = Some e →
  em_name e = input →
  (∀ j e', i < j → emojis L !! j = Some e' → em_name e' ≠ input) →
  ∃ rs r w, search s input = Some rs ∧
            weightAt (tally s input) i = w ∧ 8 ≤ w ∧
            intoHumanReadable s i (Some w) = Some r ∧ r ∈ rs.
Proof.
  intros Hb%newEmojiSearcher_built Hq Hp He Hn Hlast.
  assert (exactNameHit s input i) as Hx.
  { apply (built_nameMap _ _ Hb). split; [done|]. split_and!.
    - by exists e.
    - by eapply lookup_lt_Some.
    - intros j e' Hij _. by apply Hlast. }
  assert (lookupSafe L input) as Hsafe.
  { apply (built_strayVote L s input Hb), strayVote_false. intros _. by exists i. }
  assert (recordHas L nameTexts (chars (toLowerCase (trim input))) i) as Hsub.
  { unfold recordHas, nameTexts. rewrite He. apply occursIn_cons. left.
    rewrite Hn. apply lowerInput_infix. }
  assert (8 ≤ signalWeight s input i) as Hw.
  { unfold signalWeight. rewrite (built_list _ _ Hb).
    rewrite (decide_True _ _ Hx), (decide_True _ _ Hsub). lia. }
  destruct (built_search_includes L s input i Hb Hq Hsafe)
    as (rs & r & Hs & _ & Hr & Hin); [lia|].
  exists rs, r, (signalWeight s input i). split_and!; try done.
  by apply (tally_weight L).
Qed.

Lemma exact_name_scores_eight_witness :
  ∃ rs r w, search partySearcher "party popper" = Some rs ∧
            weightAt (tally partySearcher "party popper") 0 = w ∧ 8 ≤ w ∧
            intoHumanReadable partySearcher 0 (Some w) = Some r ∧ r ∈ rs.
Proof.
  apply (exact_name_scores_eight partyCatalog partySearcher "party popper" 0
           (mkEmoji "🎉" "party popper" [0])).
  - exact partySearcher_fresh.
  - discriminate.
  - discriminate.
  - reflexivity.
  - reflexivity.
  - intros j e' Hj He'. destruct j as [|j]; [lia|]. discriminate He'.
Defined.

(** X12: a record that takes the exact-keyword vote also takes the
    keyword-substring vote: for a non-blank query equal, as passed, to a
    keyword, and whose exact-name lookup does not fall through to an
    inherited member, every record referencing the first id of that
    keyword is returned with a weight of at least 6. *)
Theorem exact_keyword_scores_six L s input k i e :
  newEmojiSearcher L None = Some s →
  trim input ≠ EmptyString →
  lookupSafe L input →
  keywords L !! k = Some input →
  (∀ j kw, j < k → keywords L !! j = Some kw → kw ≠ input) →
  emojis L !! i = Some e →
  k ∈ em_keywords e →
  ∃ rs r w, search s input = Some rs ∧
            weightAt (tally s input) i = w ∧ 6 ≤ w ∧
            intoHumanReadable s i (Some w) = Some r ∧ r ∈ rs.
Proof.
  intros Hb%newEmojiSearcher_built Hq Hsafe Hk Hfirst He Hin.
  assert (exactKeywordHit L input i) as Hx.
  { unfold exactKeywordHit.
    rewrite (proj2 (indexOf_Some (keywords L) input k) (conj Hk Hfirst)).
    unfold refsFrom. rewrite Nat.sub_0_r, He. split; [lia|done]. }
  assert (recordHas L keywordTexts (chars (toLowerCase (trim input))) i) as Hsub.
  { apply recordHas_keyword. exists e, k, input. split_and!; try done.
    apply lowerInput_infix. }
  assert (6 ≤ signalWeight s input i) as Hw.
  { unfold signalWeight. rewrite (built_list _ _ Hb).
    rewrite (decide_True _ _ Hx), (decide_True _ _ Hsub). lia. }
  destruct (built_search_includes L s input i Hb Hq Hsafe)
    as (rs & r & Hs & _ & Hr & Hin'); [lia|].
  exists rs, r, (signalWeight s input i). split_and!; try done.
  by apply (tally_weight L).
Qed.

Lemma exact_keyword_scores_six_witness :
  ∃ rs r w, search partySearcher "celebration" = Some rs ∧
            weightAt (tally partySearcher "celebration") 0 = w ∧ 6 ≤ w ∧
            intoHumanReadable partySearcher 0 (Some w) = Some r ∧ r ∈ rs.
Proof.
  apply (exact_keyword_scores_six partyCatalog partySearcher "celebration" 0 0
           (mkEmoji "🎉" "party popper" [0])).
  - exact partySearcher_fresh.
  - discriminate.
  - by apply (bool_decide_unpack _).
  - reflexivity.
  - intros j kw Hj. lia.
  - reflexivity.
  - simpl. apply list_elem_of_here.
Defined.

(** X13: no exact match is needed to pass the filter: when the
    exact-name lookup does not fall through to an inherited member, a
    record whose lower-cased name contains the lower-cased, trimmed query
    and which has a keyword, a category or a subcategory containing it as
    well is returned, with a weight of at least 4. *)
Theorem substring_pair_passes L s input i :
  newEmojiSearcher L None = Some s →
  trim input ≠ EmptyString →
  lookupSafe L input →
  let lq := toLowerCase (trim input) in
  name_contains L lq i →
  keyword_contains L lq i ∨ category_contains L lq i →
  ∃ rs r w, search s input = Some rs ∧
            weightAt (tally s input) i = w ∧ 4 ≤ w ∧
            intoHumanReadable s i (Some w) = Some r ∧ r ∈ rs.
Proof.
  intros Hb%newEmojiSearcher_built Hq Hsafe lq Hn Hkc.
  apply recordHas_name in Hn.
  assert (4 ≤ signalWeight s input i) as Hw.
  { unfold signalWeight. rewrite (built_list _ _ Hb). fold lq.
    rewrite (decide_True _ _ Hn).
    destruct Hkc as [Hk%recordHas_keyword|Hc%recordHas_category].
    - rewrite (decide_True _ _ Hk). lia.
    - rewrite (decide_True _ _ Hc). lia. }
  destruct (built_search_includes L s input i Hb Hq Hsafe)
    as (rs & r & Hs & _ & Hr & Hin); [lia|].
  exists rs, r, (signalWeight s input i). split_and!; try done.
  by apply (tally_weight L).
Qed.

Lemma substring_pair_passes_witness :
  ∃ rs r w, search partySearcher " E " = Some rs ∧
            weightAt (tally partySearcher " E ") 0 = w ∧ 4 ≤ w ∧
            intoHumanReadable partySearcher 0 (Some w) = Some r ∧ r ∈ rs.
Proof.
  apply (substring_pair_passes partyCatalog partySearcher " E " 0).
  - exact partySearcher_fresh.
  - discriminate.
  - by apply (bool_decide_unpack _).
  - eexists. split; [reflexivity|]. by exists (chars "party popp"), (chars "r").
  - left. exists (mkEmoji "🎉" "party popper" [0]), 0, "celebration"%string.
    split_and!; [reflexivity|apply list_elem_of_here|reflexivity|].
    by exists (chars "c"), (chars "lebration").
Defined.

(* ================================================================== *)
(** ** Materialization and the view *)

(** [intoHumanReadable] raises exactly when the index is out of
    range or the category of the record has no subcategory row; a missing
    category name, subcategory name or keyword does not make it raise. *)
Lemma intoHumanReadable_raises_iff s i w :
  intoHumanReadable s i w = None ↔
  emojis (emojiList s) !! i = None ∨
  ∃ e, emojis (emojiList s) !! i = Some e ∧
       subCategory (emojiList s) !! em_category e = None.
Proof.
  unfold intoHumanReadable. destruct (emojis _ !! i) as [e|]; simpl.
  - destruct (subCategory _ !! em_category e) as [subs|] eqn:E; simpl.
    + split; [done|]. intros [?|(e' & [= <-] & He')]; [done|]. congruence.
    + split; [|done]. intros _. right. by exists e.
  - split; [by left|done].
Qed.

(** X14: over a valid catalog every record materializes with all its
    references resolved: category, subcategory and each keyword are
    defined, the keywords keep their order, the weight is the one passed
    and the image descriptor is absent exactly when the tuple has none. *)
Theorem intoHumanReadable_resolves s i e w :
  validCatalog (emojiList s) →
  emojis (emojiList s) !! i = Some e →
  ∃ r c subs sc kws,
    intoHumanReadable s i w = Some r ∧
    hr_emoji r = em_emoji e ∧ hr_name r = em_name e ∧ hr_weight r = w ∧
    category (emojiList s) !! em_category e = Some c ∧ hr_category r = Some c ∧
    subCategory (emojiList s) !! em_category e = Some subs ∧
    subs !! em_subCategory e = Some sc ∧ hr_subcategory r = Some sc ∧
    hr_keywords r = Some <$> kws ∧
    Forall2 (λ k kw, keywords (emojiList s) !! k = Some kw) (em_keywords e) kws ∧
    (hr_image r = None ↔ em_image e = None).
Proof.
  intros Hv He. unfold validCatalog in Hv. rewrite Forall_forall in Hv.
  destruct (Hv e) as (Hk & [c Hc] & [sc Hs]); [by eapply list_elem_of_lookup_2|].
  destruct (subCategory _ !! em_category e) as [subs|] eqn:Esub; simpl in Hs; [|done].
  assert (∃ kws, Forall2 (λ k kw, keywords (emojiList s) !! k = Some kw)
                   (em_keywords e) kws) as [kws Hkws].
  { clear -Hk. induction Hk as [|k ks [kw Hkw] _ [kws IH]]; [by exists []|].
    exists (kw :: kws). by constructor. }
  unfold intoHumanReadable. rewrite He. simpl. rewrite Esub. simpl.
  eexists _, c, subs, sc, kws. split; [reflexivity|]. simpl.
  split_and!; try done.
  - clear -Hkws. induction Hkws as [|k kw ks kws Hk _ IH]; [done|].
    rewrite !fmap_cons. by rewrite Hk, IH.
  - unfold fromEmojiImageArr. destruct (em_image e); [done|]. done.
Qed.

Lemma intoHumanReadable_resolves_witness :
  ∃ r c subs sc kws,
    intoHumanReadable partySearcher 0 (Some 8) = Some r ∧
    hr_emoji r = "🎉" ∧ hr_name r = "party popper" ∧ hr_weight r = Some 8 ∧
    category (emojiList partySearcher) !! 0 = Some c ∧ hr_category r = Some c ∧
    subCategory (emojiList partySearcher) !! 0 = Some subs ∧
    subs !! 0 = Some sc ∧ hr_subcategory r = Some sc ∧
    hr_keywords r = Some <$> kws ∧
    Forall2 (λ k kw, keywords (emojiList partySearcher) !! k = Some kw) [0] kws ∧
    (hr_image r = None ↔ (None : EmojiImageArray) = None).
Proof.
  apply (intoHumanReadable_resolves partySearcher 0 (mkEmoji "🎉" "party popper" [0])
           (Some 8)).
  - exact partyCatalog_valid.
  - reflexivity.
Defined.

(** X15: what a grid cell shows for a materialized record.  It shows an
    image exactly when font rendering is not forced and the catalog tuple
    has an image whose apple flag is 1 on a darwin host, or else whose
    google flag is 1; the asset then lies in the apple or in the google
    directory and ends in the tuple's file name.  In every other case the
    cell shows the glyph of the record. *)
Theorem EmojiDisplay_of_record s i w r e os force :
  intoHumanReadable s i w = Some r →
  emojis (emojiList s) !! i = Some e →
  (∀ p, EmojiDisplay os r force = Image p ↔
        default false force = false ∧
        ∃ t, em_image e = Some t ∧
             ((os = "darwin"%string ∧ img_apple t = 1 ∧
               p = "img-apple-64/" +:+ img_path t) ∨
              (¬ (os = "darwin"%string ∧ img_apple t = 1) ∧ img_google t = 1 ∧
               p = "img-google-64/" +:+ img_path t))) ∧
  (∀ g, EmojiDisplay os r force = H1 g → g = em_emoji e).
Proof.
  unfold intoHumanReadable. intros Hr He. rewrite He in Hr. simpl in Hr.
  destruct (subCategory _ !! _); simpl in Hr; [|done].
  inversion Hr; subst r; clear Hr.
  unfold EmojiDisplay, getImagePath. simpl. split.
  - intros p. destruct (em_image e) as [t|]; simpl.
    2: { split; [done|]. by intros (_ & ? & ? & _). }
    destruct (decide (os = "darwin"%string)) as [Hos|Hos].
    + rewrite (bool_decide_true _ Hos). simpl.
      destruct (img_apple t =? 1) eqn:Ea.
      * apply Nat.eqb_eq in Ea. destruct (default false force).
        -- split; [done|]. by intros [? _].
        -- split.
           ++ intros [= <-]. split; [done|]. exists t. split; [done|]. by left.
           ++ intros (_ & t' & [= <-] & [(_ & _ & ->)|(Hn & _)]); [done|].
              exfalso. by apply Hn.
      * apply Nat.eqb_neq in Ea. destruct (img_google t =? 1) eqn:Eg.
        -- apply Nat.eqb_eq in Eg. destruct (default false force).
           ++ split; [done|]. by intros [? _].
           ++ split.
              ** intros [= <-]. split; [done|]. exists t. split; [done|].
                 right. split_and!; [|done|done]. by intros [_ ?].
              ** by intros (_ & t' & [= <-] & [(_ & ? & _)|(_ & _ & ->)]).
        -- apply Nat.eqb_neq in Eg. split; [done|].
           by intros (_ & t' & [= <-] & [(_ & ? & _)|(_ & ? & _)]).
    + rewrite (bool_decide_false _ Hos). simpl.
      destruct (img_google t =? 1) eqn:Eg.
      * apply Nat.eqb_eq in Eg. destruct (default false force).
        -- split; [done|]. by intros [? _].
        -- split.
           ++ intros [= <-]. split; [done|]. exists t. split; [done|].
              right. split_and!; [|done|done]. by intros [? _].
           ++ by intros (_ & t' & [= <-] & [(? & _)|(_ & _ & ->)]).
      * apply Nat.eqb_neq in Eg. split; [done|].
        by intros (_ & t' & [= <-] & [(? & _)|(_ & ? & _)]).
  - intros g. destruct (em_image e) as [t|]; simpl; [|by intros [= <-]].
    destruct (bool_decide (os = "darwin"%string) && (img_apple t =? 1)).
    + destruct (default false force); [by intros [= <-]|done].
    + destruct (img_google t =? 1); [|by intros [= <-]].
      destruct (default false force); [by intros [= <-]|done].
Qed.

Lemma imageCatalog_valid : validCatalog imageCatalog.
Proof. valid_catalog. Qed.

Lemma EmojiDisplay_of_record_witness :
  (∀ p, EmojiDisplay "linux" imageRecord None = Image p ↔
        default false None = false ∧
        ∃ t, em_image imageEmoji = Some t ∧
             (("linux"%string = "darwin"%string ∧ img_apple t = 1 ∧
               p = "img-apple-64/" +:+ img_path t) ∨
              (¬ ("linux"%string = "darwin"%string ∧ img_apple t = 1) ∧
               img_google t = 1 ∧ p = "img-google-64/" +:+ img_path t))) ∧
  (∀ g, EmojiDisplay "linux" imageRecord None = H1 g → g = em_emoji imageEmoji).
Proof.
  apply (EmojiDisplay_of_record imageSearcher 0 None imageRecord imageEmoji "linux" None).
  - vm_compute. reflexivity.
  - vm_compute. reflexivity.
Defined.

Example EmojiDisplay_hosts :
  EmojiDisplay "linux" imageRecord None = Image "img-google-64/1f389.png" ∧
  EmojiDisplay "darwin" imageRecord None = Image "img-apple-64/1f389.png" ∧
  EmojiDisplay "darwin" imageRecord (Some true) = H1 "🎉".
Proof. split_and!; reflexivity. Qed.

(** X16: the search callback ignores white space around the query: it
    hands [update] the same value for a query and for its trimmed form. *)
Theorem throttledSearch_trims input searcher :
  throttledSearch (Some input) searcher = throttledSearch (Some (trim input)) searcher.
Proof. unfold throttledSearch. simpl. by rewrite trim_idemp. Qed.

Lemma getCommon_total s :
  validCatalog (emojiList s) →
  ∃ common, getCommon s = Some common ∧
            hr_emoji <$> common =
              filter (λ g, g ∈ em_emoji <$> emojis (emojiList s)) commonEmojis.
Proof.
  intros Hv. destruct (getCommonFrom_spec s commonEmojis Hv) as (rs & Hrs & Hg & _).
  by exists rs.
Qed.

(** X17: what the grid shows over a freshly built searcher.  For an
    absent or blank query it shows the curated set.  For a non-blank query
    whose exact-name lookup does not fall through to an inherited member
    it shows the first 32 entries of the sorted search result and never
    falls back to the curated set: a query without hits leaves the grid
    empty.  For any other non-blank query the callback raises before it
    hands a list over. *)
Theorem displayAfter_cases L s input :
  newEmojiSearcher L None = Some s →
  ∃ common, getCommon s = Some common ∧
    (match input with
     | None => True
     | Some q => trim q = EmptyString
     end → displayAfter input s = Some common) ∧
    (∀ q, input = Some q → trim q ≠ EmptyString → lookupSafe L (trim q) →
       ∃ result, search s (trim q) = Some result ∧
                 displayAfter input s = Some (take 32 (sort compareFn result)) ∧
                 length (take 32 (sort compareFn result)) ≤ 32 ∧
                 (result = [] → displayAfter input s = Some [])) ∧
    (∀ q, input = Some q → trim q ≠ EmptyString → ¬ lookupSafe L (trim q) →
       search s (trim q) = None ∧ throttledSearch input s = None ∧
       displayAfter input s = None).
Proof.
  intros Hb%newEmojiSearcher_built.
  destruct (getCommon_total s) as (common & Hc & _).
  { rewrite (built_list _ _ Hb). apply (built_valid _ _ Hb). }
  exists common. split; [done|]. split_and!.
  - intros Hblank. unfold displayAfter. rewrite Hc. simpl.
    unfold throttledSearch. destruct input as [q|]; simpl; [|done].
    rewrite Hblank. rewrite decide_True by done. done.
  - intros q -> Hq Hsafe.
    destruct (built_search_total L s (trim q) Hb) as (result & Hs & _);
      [by rewrite trim_idemp|done|].
    exists result. split; [done|].
    assert (displayAfter (Some q) s = Some (take 32 (sort compareFn result))) as Hd.
    { unfold displayAfter. rewrite Hc. simpl. unfold throttledSearch. simpl.
      rewrite decide_False by done. by rewrite Hs. }
    split_and!; [done| |].
    + rewrite length_take. lia.
    + intros ->. by rewrite Hd.
  - intros q -> Hq Hunsafe.
    assert (search s (trim q) = None) as Hs.
    { apply eq_None_not_Some. by rewrite (built_search_is_Some L s (trim q) Hb). }
    assert (throttledSearch (Some q) s = None) as Ht.
    { unfold throttledSearch. simpl. rewrite decide_False by done. by rewrite Hs. }
    split_and!; [done|done|]. unfold displayAfter. by rewrite Hc, Ht.
Qed.

Lemma displayAfter_cases_witness :
  ∃ common, getCommon partySearcher = Some common ∧
    (match Some "zebra"%string with
     | None => True
     | Some q => trim q = EmptyString
     end → displayAfter (Some "zebra"%string) partySearcher = Some common) ∧
    (∀ q, Some "zebra"%string = Some q → trim q ≠ EmptyString →
       lookupSafe partyCatalog (trim q) →
       ∃ result, search partySearcher (trim q) = Some result ∧
                 displayAfter (Some "zebra"%string) partySearcher =
                   Some (take 32 (sort compareFn result)) ∧
                 length (take 32 (sort compareFn result)) ≤ 32 ∧
                 (result = [] →
                  displayAfter (Some "zebra"%string) partySearcher = Some [])) ∧
    (∀ q, Some "zebra"%string = Some q → trim q ≠ EmptyString →
       ¬ lookupSafe partyCatalog (trim q) →
       search partySearcher (trim q) = None ∧
       throttledSearch (Some "zebra"%string) partySearcher = None ∧
       displayAfter (Some "zebra"%string) partySearcher = None).
Proof.
  exact (displayAfter_cases partyCatalog partySearcher (Some "zebra"%string)
           partySearcher_fresh).
Defined.

Example display_no_hit_is_empty :
  displayAfter (Some " toString "%string) partySearcher = None ∧
  glyphWeights (displayAfter (Some "zebra"%string) partySearcher) = Some [] ∧
  glyphWeights (displayAfter (Some "  "%string) partySearcher) = Some [("🎉", None)] ∧
  glyphWeights (displayAfter None partySearcher) = Some [("🎉", None)].
Proof. split_and!; crunch. Qed.

Lemma commonEmojis_NoDup : NoDup commonEmojis.
Proof. apply (bool_decide_unpack (NoDup commonEmojis)). vm_compute. exact I. Qed.

(** The glyphs of a search result are distinct when those of the catalog
    are. *)
Lemma search_glyphs_NoDup s input rs :
  NoDup (em_emoji <$> emojis (emojiList s)) →
  search s input = Some rs →
  NoDup (hr_emoji <$> rs).
Proof.
  intros Hnd [_ Hs]%search_Some. apply mapM_Some_1 in Hs.
  pose proof (NoDup_searchHits s input) as Hids.
  apply NoDup_alt. intros a b g Ha Hb.
  apply list_lookup_fmap_Some in Ha as (ra & -> & Hra).
  apply list_lookup_fmap_Some in Hb as (rb & Hg & Hrb).
  destruct (Forall2_lookup_r _ _ _ _ _ Hs Hra) as ([ia wa] & Hha & Hma).
  destruct (Forall2_lookup_r _ _ _ _ _ Hs Hrb) as ([ib wb] & Hhb & Hmb).
  simpl in *.
  apply intoHumanReadable_fields in Hma as (ea & Hea & Hga & _).
  apply intoHumanReadable_fields in Hmb as (eb & Heb & Hgb & _).
  assert (ia = ib) as ->.
  { eapply (NoDup_lookup _ ia ib (em_emoji ea) Hnd).
    - rewrite list_lookup_fmap, Hea. done.
    - rewrite list_lookup_fmap, Heb. simpl. congruence. }
  eapply (NoDup_lookup _ a b ib Hids).
  - rewrite list_lookup_fmap, Hha. done.
  - rewrite list_lookup_fmap, Hhb. done.
Qed.

(** X18: when the glyphs of the catalog are pairwise distinct, so are the
    glyphs of the entries the grid shows, for every query; the grid uses
    the glyph as the identity of a cell.  The grid is handed a list unless
    the exact-name lookup of the trimmed query falls through to an
    inherited member. *)
Theorem displayed_glyphs_distinct L s input :
  newEmojiSearcher L None = Some s →
  NoDup (em_emoji <$> emojis L) →
  (is_Some (displayAfter input s) ↔ ∀ q, input = Some q → lookupSafe L (trim q)) ∧
  ∀ shown, displayAfter input s = Some shown → NoDup (hr_emoji <$> shown).
Proof.
  intros Hb%newEmojiSearcher_built Hnd.
  pose proof (built_list _ _ Hb) as HL.
  destruct (getCommon_total s) as (common & Hc & Hg).
  { rewrite HL. apply (built_valid _ _ Hb). }
  assert (NoDup (hr_emoji <$> common)) as Hcn.
  { rewrite Hg. apply NoDup_filter, commonEmojis_NoDup. }
  unfold displayAfter. rewrite Hc. simpl. unfold throttledSearch.
  destruct input as [q|]; simpl.
  2: { split; [done|]. by intros shown [= <-]. }
  pose proof (built_search_is_Some L s (trim q) Hb) as Hsome.
  case_decide as Hq; simpl.
  { split; [|by intros shown [= <-]]. split; [|done].
    intros _ q' [= <-]. rewrite Hq. intros Hin.
    by apply objectPrototypeKeys_nonblank in Hin. }
  destruct (search s (trim q)) as [result|] eqn:Hs; simpl.
  - split.
    + split; [|done]. intros _ q' [= <-]. by apply Hsome.
    + intros shown [= <-].
      rewrite fmap_take. eapply sublist_NoDup; [|apply sublist_take].
      rewrite (sort_Permutation compareFn).
      eapply search_glyphs_NoDup; [|done]. by rewrite HL.
  - split; [|done]. split; [by intros [? ?]|].
    intros Hsafe. apply Hsome, Hsafe. done.
Qed.

Lemma displayed_glyphs_distinct_witness :
  (is_Some (displayAfter (Some "ca"%string) tieSearcher) ↔
   ∀ q, Some "ca"%string = Some q → lookupSafe tieCatalog (trim q)) ∧
  ∀ shown, displayAfter (Some "ca"%string) tieSearcher = Some shown →
           NoDup (hr_emoji <$> shown).
Proof.
  apply (displayed_glyphs_distinct tieCatalog tieSearcher (Some "ca"%string)).
  - apply freshSearcher_fresh. valid_catalog.
  - apply (bool_decide_unpack (NoDup (em_emoji <$> emojis tieCatalog))).
    vm_compute. exact I.
Defined.

(** X19: the cut to 32 entries drops only the entries that rank lowest:
    no entry left out of the grid has a greater weight than an entry
    shown. *)
Theorem truncation_keeps_heaviest searcher input result a b :
  trim input ≠ EmptyString →
  search searcher (trim input) = Some result →
  a ∈ take 32 (sort compareFn result) →
  b ∈ drop 32 (sort compareFn result) →
  throttledSearch (Some input) searcher = Some (Some (take 32 (sort compareFn result))) ∧
  rank b ≤ rank a.
Proof.
  intros Hq Hs Ha Hb. split.
  - unfold throttledSearch. simpl. rewrite decide_False by done. by rewrite Hs.
  - pose proof (sort_sorted compareFn rank compareFn_le compareFn_gt result) as Hsorted.
    rewrite <- (take_drop 32 (sort compareFn result)) in Hsorted.
    by apply (StronglySorted_app_1_elem_of _ _ _ a b Hsorted).
Qed.

Lemma truncation_keeps_heaviest_witness :
  let L := mkCatalog ["fox"] (replicate 33 (mkEmoji "x" "red fox" [0])) in
  let result := default [] (search (freshSearcher L) (trim "fox")) in
  let a := default imageRecord (sort compareFn result !! 0) in
  let b := default imageRecord (sort compareFn result !! 32) in
  throttledSearch (Some "fox"%string) (freshSearcher L) =
    Some (Some (take 32 (sort compareFn result))) ∧
  rank b ≤ rank a.
Proof.
  intros L result a b.
  apply (truncation_keeps_heaviest (freshSearcher L) "fox" result a b).
  - discriminate.
  - vm_compute. reflexivity.
  - apply elem_of_take. exists 0. split; [vm_compute; reflexivity|lia].
  - apply list_elem_of_lookup. exists 0. vm_compute. reflexivity.
Defined.

(** X3: two insertions may be swapped without changing which ids are
    found under a path; only the order inside an output can differ. *)
Theorem insertIntoTrie_commutes {A} `{Countable A}
    (t : TrieNode (A := A)) (text1 text2 p : list A) (i1 i2 j : nat) :
  j ∈ searchTrie (insertIntoTrie (insertIntoTrie t text1 i1) text2 i2) p ↔
  j ∈ searchTrie (insertIntoTrie (insertIntoTrie t text2 i2) text1 i1) p.
Proof.
  rewrite !searchTrie_insertIntoTrie.
  repeat case_decide; rewrite ?elem_of_addIdx; tauto.
Qed.

Example insertion_order_shows :
  searchTrie (insertIntoTrie (insertIntoTrie emptyNode (chars "ab") 0) (chars "b") 1)
    (chars "b") = [0; 1] ∧
  searchTrie (insertIntoTrie (insertIntoTrie emptyNode (chars "b") 1) (chars "ab") 0)
    (chars "b") = [1; 0].
Proof. split; crunch. Qed.
